(** * Radio Browser media source: a shallow embedding of [media_source.py]

    The module under verification is a thin adapter between a radio-station
    directory client ([radios.RadioBrowser]) and the media-browsing tree of
    the host.  Every function of the Python class [RadioMediaSource] is
    transcribed below as a Rocq function of the same name.

    - A Python [str] is the list of its Unicode code points ([Str.str]).
    - [None]-able attributes are [option]s; Python truthiness is written out.
    - The collaborators that live outside the module (the directory client,
      [mimetypes.guess_type], [vincenty], [str.lower], [str.title], the
      [DOMAIN] constant) are parameters: fields of the objects hanging off
      [self], or variables of the section.
    - Latitudes, longitudes and distances are IEEE-754 binary64 floats, as
      in Python. *)

From Stdlib Require Import String Ascii.
From Stdlib Require Import List NArith Arith Bool Lia.
From Stdlib Require Import Sorting.Sorted Sorting.Permutation.
From Stdlib Require Import PrimFloat.
Import ListNotations.

(* ===================================================================== *)
(** ** Python strings *)
(* ===================================================================== *)

Module Str.

(** A [str] is a sequence of code points. *)
Definition str : Type := list N.

(** An ASCII literal of the source, read as code points. *)
Definition lit (s : string) : str :=
  map N_of_ascii (list_ascii_of_string s).

(** [a == b] *)
Fixpoint eqb (a b : str) : bool :=
  match a, b with
  | [], [] => true
  | x :: a', y :: b' => N.eqb x y && eqb a' b'
  | _, _ => false
  end.

(** Three-way comparison behind [<] on [str]: lexicographic on code
    points, a proper prefix being smaller. *)
Fixpoint compare (a b : str) : comparison :=
  match a, b with
  | [], [] => Eq
  | [], _ :: _ => Lt
  | _ :: _, [] => Gt
  | x :: a', y :: b' =>
      match N.compare x y with
      | Eq => compare a' b'
      | c => c
      end
  end.

(** [a < b] and [a <= b] *)
Definition ltb (a b : str) : bool :=
  match compare a b with Lt => true | _ => false end.

Definition leb (a b : str) : bool :=
  match compare a b with Gt => false | _ => true end.

(** [bool(s)]: a string is truthy when it is not empty. *)
Definition truthy (s : str) : bool :=
  match s with [] => false | _ :: _ => true end.

(** [c.isspace()] for one code point, the set CPython's
    [_PyUnicode_IsWhitespace] accepts. *)
Definition isspace (c : N) : bool :=
  (((9 <=? c) && (c <=? 13)) || ((28 <=? c) && (c <=? 32))
   || (c =? 133) || (c =? 160) || (c =? 5760)
   || ((8192 <=? c) && (c <=? 8202))
   || (c =? 8232) || (c =? 8233) || (c =? 8239) || (c =? 8287)
   || (c =? 12288))%N.

(** [s.lstrip()], [s.rstrip()], [s.strip()] *)
Fixpoint lstrip (s : str) : str :=
  match s with
  | [] => []
  | c :: s' => if isspace c then lstrip s' else s
  end.

Definition rstrip (s : str) : str := rev (lstrip (rev s)).

Definition strip (s : str) : str := rstrip (lstrip s).

(** [s.split(sep)] for a one-character separator: always at least one
    piece, [n + 1] pieces for [n] separators. *)
Fixpoint split (sep : N) (s : str) : list str :=
  match s with
  | [] => [[]]
  | c :: s' =>
      if N.eqb c sep then [] :: split sep s'
      else match split sep s' with
           | p :: ps => (c :: p) :: ps
           | [] => [[c]]
           end
  end.

(** [s.partition(sep)] for a one-character separator: cut at the first
    separator; without one the result is [(s, "", "")]. *)
Fixpoint partition (sep : N) (s : str) : str * str * str :=
  match s with
  | [] => ([], [], [])
  | c :: s' =>
      if N.eqb c sep then ([], [sep], s')
      else let '(h, m, t) := partition sep s' in (c :: h, m, t)
  end.

(** [s.startswith(p)] *)
Fixpoint startswith (p s : str) : bool :=
  match p, s with
  | [], _ => true
  | _ :: _, [] => false
  | x :: p', y :: s' => N.eqb x y && startswith p' s'
  end.

(** [needle in hay] *)
Fixpoint contains (needle hay : str) : bool :=
  startswith needle hay
  || match hay with
     | [] => false
     | _ :: hay' => contains needle hay'
     end.

(** [s.endswith(p)] *)
Definition endswith (p s : str) : bool := startswith (rev p) (rev s).

(** ASCII-only [s.lower()], used to run the examples; the development
    itself is parametric in the real [str.lower]. *)
Definition ascii_lower (s : str) : str :=
  map (fun c => if (65 <=? c) && (c <=? 90) then c + 32 else c)%N s.

(** ASCII-only [s.title()], likewise: a letter that follows a letter is
    lower-cased, any other letter is upper-cased. *)
Fixpoint ascii_title_from (after_letter : bool) (s : str) : str :=
  match s with
  | [] => []
  | c :: s' =>
      let upper := ((65 <=? c) && (c <=? 90))%N in
      let lower := ((97 <=? c) && (c <=? 122))%N in
      (if after_letter then (if upper then c + 32 else c)
       else (if lower then c - 32 else c))%N
      :: ascii_title_from (upper || lower) s'
  end.

Definition ascii_title (s : str) : str := ascii_title_from false s.

End Str.

Abbreviation str := Str.str.
Abbreviation lit := Str.lit.
Arguments Str.lit s%_string.

(** Truthiness of an optional string: [None] and [""] are falsy. *)
Definition opt_truthy (o : option str) : bool :=
  match o with
  | Some s => Str.truthy s
  | None => false
  end.

(** [o or ""] *)
Definition or_empty (o : option str) : str :=
  match o with
  | Some s => s
  | None => []
  end.

(* ===================================================================== *)
(** ** Python dicts and [list.sort] *)
(* ===================================================================== *)

(** A [dict] keyed by strings.  Iteration follows insertion order, and
    assigning to a key that is present keeps its position, so the model is
    an association list without repeated keys. *)
Module Dict.

Definition dict (V : Type) : Type := list (str * V).

(** [d.get(k)] *)
Fixpoint get {V} (d : dict V) (k : str) : option V :=
  match d with
  | [] => None
  | (k', v) :: d' => if Str.eqb k' k then Some v else get d' k
  end.

(** [d.get(k, default)] *)
Definition get_default {V} (d : dict V) (k : str) (default : V) : V :=
  match get d k with
  | Some v => v
  | None => default
  end.

(** [d[k] = v] *)
Fixpoint set {V} (k : str) (v : V) (d : dict V) : dict V :=
  match d with
  | [] => [(k, v)]
  | (k', v') :: d' =>
      if Str.eqb k' k then (k, v) :: d' else (k', v') :: set k v d'
  end.

(** [d.items()] *)
Definition items {V} (d : dict V) : list (str * V) := d.

End Dict.

(** [l.sort(key=..., reverse=...)].  The sort is stable and compares keys
    with [<] only; with [reverse=True] every comparison is reversed and
    equal keys still keep their original order.  A stable sort has one
    possible result, computed here by insertion from the right. *)
Section ListSort.

Variables (A K : Type) (key : A -> K) (lt : K -> K -> bool).

Fixpoint insort (reverse : bool) (x : A) (l : list A) : list A :=
  match l with
  | [] => [x]
  | y :: l' =>
      if (if reverse then lt (key x) (key y) else lt (key y) (key x))
      then y :: insort reverse x l'
      else x :: y :: l'
  end.

Definition list_sort (reverse : bool) (l : list A) : list A :=
  fold_right (insort reverse) [] l.

End ListSort.

Arguments insort {A K} key lt reverse x l.
Arguments list_sort {A K} key lt reverse l.

(* ===================================================================== *)
(** ** Data model *)
(* ===================================================================== *)

(** Modelled from the spec: the class [Station] of the [radios] package,
    which the repository imports and does not define.  The attributes are
    those the module reads, typed as section 3 of the specification and
    the module's own tests on them say: [tags] and [language] are strings
    that may be empty or missing, the coordinates may be [None]. *)
Record Station : Type := {
  uuid : str;
  name : str;
  codec : str;
  url : str;
  url_resolved : str;
  favicon : option str;
  latitude : option float;
  longitude : option float;
  countrycode : str;
  language : option str;
  tags : option str
}.

(** Modelled from the spec: [radios.FilterBy] and [radios.Order], imported
    from the same package; the members the module names. *)
Inductive FilterBy : Type :=
  | COUNTRY_CODE_EXACT
  | LANGUAGE_EXACT
  | TAG_EXACT.

Inductive Order : Type :=
  | NAME
  | CLICK_COUNT.

(** Modelled from the spec: the directory client [radios.RadioBrowser]
    (section 6, "outbound to directory service"), as the answers it gives
    during one request.  A keyword argument that a call leaves out is
    [None]. *)
Module Radios.

Record Query : Type := {
  filter_by : FilterBy;
  filter_term : str;
  hide_broken : bool;
  limit : option nat;
  order : option Order;
  reverse : option bool
}.

(** An exception raised inside the client (connection lost, timeout,
    unusable answer).  The module catches none. *)
Inductive RadioBrowserError : Type :=
  | RadioBrowserError_ (description : str).

Record RadioBrowser : Type := {
  (** [await radios.stations(...)] *)
  stations : Query -> list Station;
  (** [await radios.station(uuid=...)]: [None] when there is no such
      station *)
  station : option str -> option Station;
  (** [await radios.station_click(uuid=...)]: [None] when the call
      returns, [Some error] when it raises *)
  station_click : str -> option RadioBrowserError
}.

End Radios.

(** Modelled from the spec: [MediaClass] and [MediaType.MUSIC] of the
    host's media player component. *)
Inductive MediaClass : Type :=
  | CHANNEL
  | DIRECTORY
  | MUSIC.

Definition MediaType_MUSIC : str := lit "music".

(** Modelled from the spec: the host's [MediaSourceItem]; the identifier is
    [None] for the root of the tree. *)
Module Item.

Record MediaSourceItem : Type := {
  identifier : option str
}.

End Item.

(** Modelled from the spec: the host's [PlayMedia(url, mime_type)]. *)
Module Play.

Record PlayMedia : Type := {
  url : str;
  mime_type : str
}.

End Play.

(** Modelled from the spec: the host's [BrowseMediaSource] (the browse
    node of section 3), with the keyword arguments the module passes; an
    argument a constructor call leaves out is [None]. *)
#[local] Unset Elimination Schemes.
Inductive BrowseMediaSource : Type := Browse {
  domain : str;
  identifier : option str;
  media_class : MediaClass;
  media_content_type : str;
  title : str;
  can_play : bool;
  can_expand : bool;
  children_media_class : option MediaClass;
  children : option (list BrowseMediaSource);
  thumbnail : option str
}.
#[local] Set Elimination Schemes.

(** Modelled from the spec: the host's exception [Unresolvable(message)]. *)
Inductive Unresolvable : Type :=
  | Unresolvable_ (message : str).

(** The two messages [async_resolve_media] raises with. *)
Definition StationUnavailable : Unresolvable :=
  Unresolvable_ (lit "Radio station is no longer available").

Definition UnknownStreamType : Unresolvable :=
  Unresolvable_ (lit "Could not determine stream type of radio station").

(** What [async_resolve_media] can end with instead of a value: an
    [Unresolvable] of its own, or the exception of the unguarded
    [station_click] call, which passes through. *)
Inductive Raised : Type :=
  | Raise (e : Unresolvable)
  | Propagate (error : Radios.RadioBrowserError).

(** Modelled from the spec: [hass.config] with the configured coordinate,
    and the config entry that carries the directory client. *)
Module Hass.

Record Config : Type := {
  latitude : float;
  longitude : float
}.

Record HomeAssistant : Type := {
  config : Config
}.

End Hass.

Module Entry.

Record RadioBrowserConfigEntry : Type := {
  title : str;
  runtime_data : Radios.RadioBrowser
}.

End Entry.

(** The object under verification. *)
Record RadioMediaSource : Type := {
  hass : Hass.HomeAssistant;
  entry : Entry.RadioBrowserConfigEntry
}.

(** [self.radios] *)
Definition radios (self : RadioMediaSource) : Radios.RadioBrowser :=
  Entry.runtime_data (entry self).

(** One entry of the tag ranking: the dict [{"name": ..., "stationcount": ...}]. *)
Module Tag.

Record row : Type := {
  name : str;
  stationcount : nat
}.

End Tag.

Definition CODEC_TO_MIMETYPE : Dict.dict str :=
  [ (lit "MP3", lit "audio/mpeg");
    (lit "AAC", lit "audio/aac");
    (lit "AAC+", lit "audio/aac");
    (lit "OGG", lit "application/ogg") ].

(* ===================================================================== *)
(** ** Sample data *)
(* ===================================================================== *)

(** Concrete collaborators and stations on which the definitions are run. *)
Module Demo.

(** What [mimetypes.guess_type] answers on the sample URLs: a URL ending
    in [.mp3] is [audio/mpeg], the others have no known type. *)
Definition guess_type (url : str) : option str :=
  if Str.endswith (lit ".mp3") url then Some (lit "audio/mpeg") else None.

(** A distance oracle for the samples: coincident points are 0 km apart,
    a station at latitude 59.5 is 412.25 km away, and the iteration does
    not converge for any other pair. *)
Definition vincenty (point1 point2 : float * float) (miles : bool)
    : option float :=
  if PrimFloat.eqb (fst point1) (fst point2)
     && PrimFloat.eqb (snd point1) (snd point2)
  then Some 0%float
  else if PrimFloat.eqb (fst point2) 59.5 then Some 412.25%float
  else None.

Definition DOMAIN : str := lit "radio_browser".

Definition str_lower : str -> str := Str.ascii_lower.
Definition str_title : str -> str := Str.ascii_title.

Definition mk (id codec_ url_ : string) (tags_ : option str) : Station :=
  {| uuid := lit id;
     name := lit "Radio " ++ lit id;
     codec := lit codec_;
     url := lit url_;
     url_resolved := lit url_ ++ lit "?resolved";
     favicon := None;
     latitude := None;
     longitude := None;
     countrycode := lit "RU";
     language := Some (lit "Russian");
     tags := tags_ |}.

Definition at_ (lat lon : float) (country : string) (s : Station) : Station :=
  {| uuid := uuid s; name := name s; codec := codec s; url := url s;
     url_resolved := url_resolved s; favicon := favicon s;
     latitude := Some lat; longitude := Some lon;
     countrycode := lit country; language := language s; tags := tags s |}.

Definition mp3 : Station := mk "s-mp3" "MP3" "http://x/stream" (Some (lit "Jazz, Rock")).
Definition unknown : Station := mk "s-unk" "UNKNOWN" "http://x/a.mp3" (Some (lit "jazz")).
Definition flac : Station := mk "s-flac" "FLAC" "http://x/stream" (Some (lit "Rock, Pop")).
Definition aac : Station := mk "s-aac" "AAC+" "http://x/b.mp3" (Some (lit " Jazz ,,Jazz")).

Definition all : list Station := [mp3; unknown; flac; aac].

(** The samples placed on the map: one at the origin, one far away in
    the country, one at the origin abroad, one for which the distance is
    not defined, one without coordinates. *)
Definition placed : list Station :=
  [at_ 55.75 37.5 "RU" mp3; at_ 59.5 30.25 "RU" flac;
   at_ 55.75 37.5 "BY" aac; at_ 1 2 "RU" unknown; mp3].

(** A directory that holds the four samples and answers every list query
    with all of them. *)
Definition client : Radios.RadioBrowser :=
  {| Radios.stations := fun _ => all;
     Radios.station := fun id =>
       find (fun s => Str.eqb (uuid s) (or_empty id)) all;
     Radios.station_click := fun _ => None |}.

Definition source : RadioMediaSource :=
  {| hass := {| Hass.config := {| Hass.latitude := 55.75; Hass.longitude := 37.5 |} |};
     entry := {| Entry.title := lit "Radio Browser"; Entry.runtime_data := client |} |}.

Definition item (id : string) : Item.MediaSourceItem :=
  {| Item.identifier := Some (lit id) |}.

End Demo.

(** More samples: a directory whose stations are placed on the map, and
    a station list with 101 distinct tags. *)
Module Nearby.

Definition client : Radios.RadioBrowser :=
  {| Radios.stations := fun _ => Demo.placed;
     Radios.station := fun id =>
       find (fun s => Str.eqb (uuid s) (or_empty id)) Demo.placed;
     Radios.station_click := fun _ => None |}.

Definition source : RadioMediaSource :=
  {| hass := hass Demo.source;
     entry := {| Entry.title := lit "Radio Browser";
                 Entry.runtime_data := client |} |}.

End Nearby.

(** A directory whose click call fails. *)
Module Offline.

Definition client : Radios.RadioBrowser :=
  {| Radios.stations := Radios.stations Demo.client;
     Radios.station := Radios.station Demo.client;
     Radios.station_click := fun _ =>
       Some (Radios.RadioBrowserError_ (lit "timeout")) |}.

Definition source : RadioMediaSource :=
  {| hass := hass Demo.source;
     entry := {| Entry.title := lit "Radio Browser";
                 Entry.runtime_data := client |} |}.

End Offline.

(** A directory that answers the query for the tag "Jazz" with stations
    from several countries, and every other query with nothing. *)
Module Abroad.

Definition speaking (country : string) (language_ : option str)
    (s : Station) : Station :=
  {| uuid := uuid s; name := name s; codec := codec s; url := url s;
     url_resolved := url_resolved s; favicon := favicon s;
     latitude := latitude s; longitude := longitude s;
     countrycode := lit country; language := language_; tags := tags s |}.

Definition minsk : Station :=
  speaking "BY" (Some (lit "belarusian,RUSSIAN"))
    (Demo.mk "s-by" "MP3" "http://x/by" (Some (lit "Jazz"))).

Definition berlin : Station :=
  speaking "DE" (Some (lit "german"))
    (Demo.mk "s-de" "MP3" "http://x/de" (Some (lit "Jazz"))).

Definition tver : Station :=
  speaking "RU" None
    (Demo.mk "s-ru" "OGG" "http://x/ru" (Some (lit "Jazz"))).

Definition almaty : Station :=
  speaking "KZ" (Some (lit "russian"))
    (Demo.mk "s-kz" "UNKNOWN" "http://x/kz.mp3" (Some (lit "Jazz"))).

Definition jazz : list Station := [minsk; berlin; tver; almaty].

Definition client : Radios.RadioBrowser :=
  {| Radios.stations := fun q =>
       match Radios.filter_by q with
       | TAG_EXACT =>
           if Str.eqb (Radios.filter_term q) (lit "Jazz") then jazz else []
       | _ => []
       end;
     Radios.station := fun id =>
       find (fun s => Str.eqb (uuid s) (or_empty id)) jazz;
     Radios.station_click := fun _ => None |}.

Definition source : RadioMediaSource :=
  {| hass := hass Demo.source;
     entry := {| Entry.title := lit "Radio Browser";
                 Entry.runtime_data := client |} |}.

End Abroad.

Module Crowd.

(** The tag number [n]: one character, code point [200 + n]. *)
Definition tag_of (n : nat) : str := [N.of_nat (200 + n)].

(** [",".join(tags)] *)
Fixpoint join (tags : list str) : str :=
  match tags with
  | [] => []
  | [t] => t
  | t :: rest => t ++ N_of_ascii "," :: join rest
  end.

(** One station carries the tags 0 to 100, a second one the tag 100
    again. *)
Definition many : Station :=
  Demo.mk "s-many" "MP3" "http://x/stream"
    (Some (join (map tag_of (seq 0 101)))).

Definition again : Station :=
  Demo.mk "s-again" "MP3" "http://x/stream" (Some (tag_of 100)).

Definition stations : list Station := [many; again].

End Crowd.

(* ===================================================================== *)
(** ** The media source *)
(* ===================================================================== *)

Section MediaSource.

#[local] Set Default Proof Using "Type".

(** [from .const import DOMAIN] *)
Variable DOMAIN : str.

(** [mimetypes.guess_type(url)[0]] *)
Variable guess_type : str -> option str.

(** [homeassistant.util.location.vincenty(point1, point2, miles)]: the
    distance, or [None] when the iteration does not converge. *)
Variable vincenty : float * float -> float * float -> bool -> option float.

(** [str.lower] and [str.title] *)
Variable str_lower : str -> str.
Variable str_title : str -> str.

(** *** [_async_get_station_mime_type] *)
Definition _async_get_station_mime_type (station : Station) : option str :=
  let mime_type := Dict.get CODEC_TO_MIMETYPE (codec station) in
  if negb (opt_truthy mime_type) then guess_type (url station)
  else mime_type.

(** *** [async_resolve_media]

    The result pairs the [station_click] calls made (uuids, in order)
    with either what was raised or the value returned.  The click is
    awaited outside any [try], so an exception it raises ends the call
    in place of the return. *)
Definition async_resolve_media (self : RadioMediaSource)
    (item : Item.MediaSourceItem) : list str * (Raised + Play.PlayMedia) :=
  let radios := radios self in
  match Radios.station radios (Item.identifier item) with
  | None => ([], inl (Raise StationUnavailable))
  | Some station =>
      let mime_type := _async_get_station_mime_type station in
      if negb (opt_truthy mime_type) then ([], inl (Raise UnknownStreamType))
      else
        match Radios.station_click radios (uuid station) with
        | Some error => ([uuid station], inl (Propagate error))
        | None =>
            ([uuid station],
             inr {| Play.url := url_resolved station;
                    Play.mime_type := or_empty mime_type |})
        end
  end.

(** *** [_async_build_stations] *)

(** The node appended for a station that is kept. *)
Definition station_node (station : Station) (mime_type : str) : BrowseMediaSource :=
  {| domain := DOMAIN;
     identifier := Some (uuid station);
     media_class := MUSIC;
     media_content_type := mime_type;
     title := name station;
     can_play := true;
     can_expand := false;
     children_media_class := None;
     children := None;
     thumbnail := favicon station |}.

(** One turn of the [for station in stations] loop. *)
Definition build_stations_step (items : list BrowseMediaSource)
    (station : Station) : list BrowseMediaSource :=
  let mime_type := _async_get_station_mime_type station in
  if Str.eqb (codec station) (lit "UNKNOWN") || negb (opt_truthy mime_type)
  then items
  else items ++ [station_node station (or_empty mime_type)].

Definition _async_build_stations (self : RadioMediaSource)
    (radios : Radios.RadioBrowser) (stations : list Station)
    : list BrowseMediaSource :=
  fold_left build_stations_step stations [].

(** The stations the loop keeps, in the words of the specification: the
    codec is not the sentinel and a mime type can be determined. *)
Definition is_retained (station : Station) : bool :=
  negb (Str.eqb (codec station) (lit "UNKNOWN"))
  && opt_truthy (_async_get_station_mime_type station).

(** [not item.identifier] *)
Definition is_root (item : Item.MediaSourceItem) : bool :=
  negb (opt_truthy (Item.identifier item)).

(** *** [_async_build_by_country] *)
Definition by_country_query : Radios.Query :=
  {| Radios.filter_by := COUNTRY_CODE_EXACT;
     Radios.filter_term := lit "RU";
     Radios.hide_broken := true;
     Radios.limit := None;
     Radios.order := Some NAME;
     Radios.reverse := Some false |}.

Definition _async_build_by_country (self : RadioMediaSource)
    (radios : Radios.RadioBrowser) (item : Item.MediaSourceItem)
    : list BrowseMediaSource :=
  if is_root item then
    let stations := Radios.stations radios by_country_query in
    _async_build_stations self radios stations
  else [].

(** *** [_async_build_by_language] *)
Definition by_language_query : Radios.Query :=
  {| Radios.filter_by := LANGUAGE_EXACT;
     Radios.filter_term := lit "russian";
     Radios.hide_broken := true;
     Radios.limit := None;
     Radios.order := Some NAME;
     Radios.reverse := Some false |}.

Definition _async_build_by_language (self : RadioMediaSource)
    (radios : Radios.RadioBrowser) (item : Item.MediaSourceItem)
    : list BrowseMediaSource :=
  if is_root item then
    let stations := Radios.stations radios by_language_query in
    _async_build_stations self radios stations
  else [].

(** *** [_async_build_popular] *)
Definition popular_query : Radios.Query :=
  {| Radios.filter_by := COUNTRY_CODE_EXACT;
     Radios.filter_term := lit "RU";
     Radios.hide_broken := true;
     Radios.limit := Some 250;
     Radios.order := Some CLICK_COUNT;
     Radios.reverse := Some true |}.

Definition _async_build_popular (self : RadioMediaSource)
    (radios : Radios.RadioBrowser) (item : Item.MediaSourceItem)
    : list BrowseMediaSource :=
  if is_root item then
    let stations := Radios.stations radios popular_query in
    _async_build_stations self radios stations
  else [].

(** *** [_async_build_by_tag] *)

Definition by_tag_query (tag : str) : Radios.Query :=
  {| Radios.filter_by := TAG_EXACT;
     Radios.filter_term := tag;
     Radios.hide_broken := true;
     Radios.limit := None;
     Radios.order := Some NAME;
     Radios.reverse := Some false |}.

Definition tag_index_query : Radios.Query :=
  {| Radios.filter_by := COUNTRY_CODE_EXACT;
     Radios.filter_term := lit "RU";
     Radios.hide_broken := true;
     Radios.limit := None;
     Radios.order := None;
     Radios.reverse := None |}.

(** The condition of the comprehension that keeps the Russian stations. *)
Definition is_russian (s : Station) : bool :=
  Str.eqb (countrycode s) (lit "RU")
  || Str.contains (lit "russian") (str_lower (or_empty (language s))).

(** One turn of [for tag in station.tags.split(',')]. *)
Definition count_tag (tag_count : Dict.dict nat) (tag : str) : Dict.dict nat :=
  let tag := Str.strip tag in
  if Str.truthy tag
  then Dict.set tag (Dict.get_default tag_count tag 0 + 1) tag_count
  else tag_count.

(** One turn of [for station in stations]. *)
Definition count_station (tag_count : Dict.dict nat) (station : Station)
    : Dict.dict nat :=
  if opt_truthy (tags station)
  then fold_left count_tag
         (Str.split (N_of_ascii ",") (or_empty (tags station))) tag_count
  else tag_count.

(** [tag_count] once both loops are over. *)
Definition collect_tag_count (stations : list Station) : Dict.dict nat :=
  fold_left count_station stations [].

(** The tag occurrences of a station list in the words of the
    specification: the comma-separated components of each tags field,
    trimmed, the empty ones discarded, each paired with its station. *)
Definition station_tags (station : Station) : list str :=
  filter Str.truthy
    (map Str.strip (Str.split (N_of_ascii ",") (or_empty (tags station)))).

Definition tag_pairs (stations : list Station) : list (Station * str) :=
  flat_map (fun station => map (pair station) (station_tags station)) stations.

Definition tag_occurrences (T : str) (stations : list Station) : nat :=
  length (filter (fun p => Str.eqb (snd p) T) (tag_pairs stations)).

(** [tags] after the comprehension, the two sorts and the slice. *)
Definition ranked_tags (tag_count : Dict.dict nat) : list Tag.row :=
  let tags :=
    map (fun '(tag, count) => {| Tag.name := tag; Tag.stationcount := count |})
        (Dict.items tag_count) in
  let tags := list_sort Tag.stationcount Nat.ltb true tags in
  let tags := firstn 100 tags in
  let tags := list_sort Tag.name Str.ltb false tags in
  tags.

Definition tag_node (tag : Tag.row) : BrowseMediaSource :=
  {| domain := DOMAIN;
     identifier := Some (lit "tag/" ++ Tag.name tag);
     media_class := DIRECTORY;
     media_content_type := MediaType_MUSIC;
     title := str_title (Tag.name tag);
     can_play := false;
     can_expand := true;
     children_media_class := None;
     children := None;
     thumbnail := None |}.

Definition by_category_node : BrowseMediaSource :=
  {| domain := DOMAIN;
     identifier := Some (lit "tag");
     media_class := DIRECTORY;
     media_content_type := MediaType_MUSIC;
     title := lit "By Category";
     can_play := false;
     can_expand := true;
     children_media_class := None;
     children := None;
     thumbnail := None |}.

Definition _async_build_by_tag (self : RadioMediaSource)
    (radios : Radios.RadioBrowser) (item : Item.MediaSourceItem)
    : list BrowseMediaSource :=
  let '(category, _, tag) :=
    Str.partition (N_of_ascii "/") (or_empty (Item.identifier item)) in
  if Str.eqb category (lit "tag") && Str.truthy tag then
    let stations := Radios.stations radios (by_tag_query tag) in
    let russian_stations := filter is_russian stations in
    _async_build_stations self radios russian_stations
  else if Str.eqb category (lit "tag") then
    let stations := Radios.stations radios tag_index_query in
    let tag_count := collect_tag_count stations in
    let tags := ranked_tags tag_count in
    map tag_node tags
  else if is_root item then [by_category_node]
  else [].

(** *** [_filter_local_stations] *)

(** The condition of the comprehension, its [and]s read left to right;
    [lat] and [lon] are the arguments [latitude] and [longitude]. *)
Definition is_local (lat lon : float) (station : Station) : bool :=
  match latitude station, longitude station with
  | Some station_latitude, Some station_longitude =>
      Str.eqb (countrycode station) (lit "RU")
      && match vincenty (lat, lon)
                 (station_latitude, station_longitude) false with
         | Some dist => PrimFloat.ltb dist 100
         | None => false
         end
  | _, _ => false
  end.

Definition _filter_local_stations (self : RadioMediaSource)
    (stations : list Station) (lat lon : float) : list Station :=
  filter (is_local lat lon) stations.

(** *** [_async_build_local] *)
Definition _async_build_local (self : RadioMediaSource)
    (radios : Radios.RadioBrowser) (item : Item.MediaSourceItem)
    : list BrowseMediaSource :=
  if is_root item then
    let stations := Radios.stations radios by_country_query in
    let local_stations :=
      _filter_local_stations self stations
        (Hass.latitude (Hass.config (hass self)))
        (Hass.longitude (Hass.config (hass self))) in
    _async_build_stations self radios local_stations
  else [].

(** *** [async_browse_media] *)
Definition async_browse_media (self : RadioMediaSource)
    (item : Item.MediaSourceItem) : BrowseMediaSource :=
  let radios := radios self in
  {| domain := DOMAIN;
     identifier := None;
     media_class := CHANNEL;
     media_content_type := MediaType_MUSIC;
     title := Entry.title (entry self);
     can_play := false;
     can_expand := true;
     children_media_class := Some DIRECTORY;
     children :=
       Some (_async_build_popular self radios item
             ++ _async_build_by_tag self radios item
             ++ _async_build_by_language self radios item
             ++ _async_build_local self radios item
             ++ _async_build_by_country self radios item);
     thumbnail := None |}.


(** [tags] after the sort by count, before the slice. *)
Definition tags_by_count (tag_count : Dict.dict nat) : list Tag.row :=
  list_sort Tag.stationcount Nat.ltb true
    (map (fun '(tag, count) => {| Tag.name := tag; Tag.stationcount := count |})
         (Dict.items tag_count)).

(** The distinct elements of a list, each at the place of its first
    occurrence. *)
Definition see (seen : list str) (t : str) : list str :=
  if existsb (Str.eqb t) seen then seen else seen ++ [t].

Definition first_occurrences (l : list str) : list str :=
  fold_left see l [].

(** A key as the loops write them: not empty, trimmed, without comma. *)
Definition clean_tag (tag : str) : Prop :=
  tag <> [] /\ Str.strip tag = tag /\ ~ In (N_of_ascii ",") tag.

(* ===================================================================== *)
(** ** Facts about strings *)
(* ===================================================================== *)

Lemma str_eqb_eq (a b : str) : Str.eqb a b = true <-> a = b.
Proof.
  revert b; induction a as [|x a IH]; intros [|y b]; simpl;
    try (split; [discriminate | congruence]); try (split; reflexivity).
  rewrite andb_true_iff, N.eqb_eq, IH.
  split; [intros [-> ->]; reflexivity | intros H; inversion H; auto].
Qed.

Lemma str_eqb_refl (a : str) : Str.eqb a a = true.
Proof. apply str_eqb_eq; reflexivity. Qed.

Lemma str_eqb_neq (a b : str) : Str.eqb a b = false <-> a <> b.
Proof.
  rewrite <- str_eqb_eq. destruct (Str.eqb a b); split; congruence.
Qed.

Lemma str_eqb_sym (a b : str) : Str.eqb a b = Str.eqb b a.
Proof.
  destruct (Str.eqb a b) eqn:E.
  - apply str_eqb_eq in E; subst; symmetry; apply str_eqb_refl.
  - destruct (Str.eqb b a) eqn:E'; [|reflexivity].
    apply str_eqb_eq in E'; subst. now rewrite str_eqb_refl in E.
Qed.

Lemma str_compare_antisym (a b : str) :
  Str.compare b a = CompOpp (Str.compare a b).
Proof.
  revert b; induction a as [|x a IH]; intros [|y b]; simpl; auto.
  rewrite (N.compare_antisym x y).
  destruct (N.compare x y); simpl; auto.
Qed.

Lemma str_compare_eq (a b : str) : Str.compare a b = Eq -> a = b.
Proof.
  revert b; induction a as [|x a IH]; intros [|y b]; simpl;
    try discriminate; auto.
  destruct (N.compare x y) eqn:E; try discriminate.
  apply N.compare_eq in E; subst. intros H; f_equal; auto.
Qed.

Lemma str_compare_refl (a : str) : Str.compare a a = Eq.
Proof.
  induction a as [|x a IH]; simpl; auto. now rewrite N.compare_refl.
Qed.

Lemma str_compare_lt_trans (a b c : str) :
  Str.compare a b = Lt -> Str.compare b c = Lt -> Str.compare a c = Lt.
Proof.
  revert b c; induction a as [|x a IH]; intros [|y b] [|z c]; simpl;
    try discriminate; auto.
  destruct (N.compare x y) eqn:Exy; try discriminate;
    destruct (N.compare y z) eqn:Eyz; try discriminate; intros H1 H2.
  - apply N.compare_eq in Exy, Eyz; subst.
    rewrite N.compare_refl. eauto.
  - apply N.compare_eq in Exy; subst. now rewrite Eyz.
  - apply N.compare_eq in Eyz; subst. now rewrite Exy.
  - rewrite N.compare_lt_iff in Exy, Eyz.
    assert (E : (x ?= z)%N = Lt) by (apply N.compare_lt_iff; lia).
    now rewrite E.
Qed.

(** [<=] on strings is a total preorder, and [not (b < a)] is [a <= b]. *)
Lemma str_ltb_false_leb (a b : str) : Str.ltb b a = false <-> Str.leb a b = true.
Proof.
  unfold Str.ltb, Str.leb. rewrite (str_compare_antisym a b).
  destruct (Str.compare a b); simpl; split; congruence.
Qed.

Lemma str_ltb_asym (a b : str) : Str.ltb a b = true -> Str.ltb b a = false.
Proof.
  unfold Str.ltb. rewrite (str_compare_antisym a b).
  destruct (Str.compare a b); simpl; congruence.
Qed.

Lemma str_leb_trans (a b c : str) :
  Str.leb a b = true -> Str.leb b c = true -> Str.leb a c = true.
Proof.
  unfold Str.leb.
  destruct (Str.compare a b) eqn:Eab; try discriminate;
    destruct (Str.compare b c) eqn:Ebc; try discriminate; intros _ _.
  - apply str_compare_eq in Eab, Ebc; subst. now rewrite str_compare_refl.
  - apply str_compare_eq in Eab; subst. now rewrite Ebc.
  - apply str_compare_eq in Ebc; subst. now rewrite Eab.
  - now rewrite (str_compare_lt_trans _ _ _ Eab Ebc).
Qed.

(** [needle in hay] holds exactly when [hay] is [a + needle + b]. *)
Lemma str_startswith_app (p s : str) :
  Str.startswith p s = true <-> exists b, s = p ++ b.
Proof.
  revert s; induction p as [|x p IH]; intros s; simpl.
  - split; eauto.
  - destruct s as [|y s].
    + split; [discriminate | intros [b H]; discriminate].
    + rewrite andb_true_iff, N.eqb_eq, IH. split.
      * intros [-> [b ->]]; eauto.
      * intros [b H]; inversion H; eauto.
Qed.

Lemma str_contains_app (needle hay : str) :
  Str.contains needle hay = true <-> exists a b, hay = a ++ needle ++ b.
Proof.
  induction hay as [|c hay IH].
  - simpl. rewrite orb_false_r, str_startswith_app. split.
    + intros [b H]; exists [], b; auto.
    + intros [a [b H]]. destruct a; [eauto | discriminate].
  - change (Str.contains needle (c :: hay))
      with (Str.startswith needle (c :: hay) || Str.contains needle hay).
    rewrite orb_true_iff, str_startswith_app, IH. split.
    + intros [[b H] | [a [b H]]].
      * exists [], b; auto.
      * exists (c :: a), b; simpl; congruence.
    + intros [[|c' a] [b H]].
      * left; eauto.
      * right. inversion H; eauto.
Qed.

(** Cutting ["tag/" + name] at the first slash. *)
Lemma str_partition_tag (rest : str) :
  Str.partition (N_of_ascii "/") (lit "tag/" ++ rest)
  = (lit "tag", lit "/", rest).
Proof. reflexivity. Qed.

(* ===================================================================== *)
(** ** The mime type of a station *)
(* ===================================================================== *)

Lemma dict_get_In {V} (d : Dict.dict V) (k : str) (v : V) :
  Dict.get d k = Some v -> In (k, v) d.
Proof.
  induction d as [|[k' v'] d IH]; simpl; [discriminate|].
  destruct (Str.eqb k' k) eqn:E.
  - apply str_eqb_eq in E; subst. intros H; inversion H; auto.
  - auto.
Qed.

Lemma mime_type_table_hit (station : Station) (mime_type : str) :
  In (codec station, mime_type) CODEC_TO_MIMETYPE ->
  Dict.get CODEC_TO_MIMETYPE (codec station) = Some mime_type
  /\ Str.truthy mime_type = true.
Proof.
  unfold CODEC_TO_MIMETYPE; simpl.
  intros [H | [H | [H | [H | []]]]]; inversion H as [[Hc Hm]];
    split; reflexivity.
Qed.

(** C6.  When the codec of a station is a key of [CODEC_TO_MIMETYPE], the
    mime type determined for it is the value the table holds for that
    codec, whatever the URL and whatever [guess_type] would say; when the
    codec is no key of the table, the answer is the guess from the URL. *)
Theorem mime_type_from_table_first (station : Station) :
  (forall mime_type,
      In (codec station, mime_type) CODEC_TO_MIMETYPE ->
      _async_get_station_mime_type station = Some mime_type)
  /\ ((forall mime_type, ~ In (codec station, mime_type) CODEC_TO_MIMETYPE) ->
      _async_get_station_mime_type station = guess_type (url station)).
Proof.
  split.
  - intros mime_type Hin.
    destruct (mime_type_table_hit station mime_type Hin) as [Hget Htruthy].
    unfold _async_get_station_mime_type.
    rewrite Hget. simpl. now rewrite Htruthy.
  - intros Hmiss. unfold _async_get_station_mime_type.
    destruct (Dict.get CODEC_TO_MIMETYPE (codec station)) as [m|] eqn:Hget.
    + exfalso. exact (Hmiss m (dict_get_In _ _ _ Hget)).
    + reflexivity.
Qed.

(** Without a table entry the mime type is the guess. *)
Lemma mime_type_table_miss (station : Station) :
  Dict.get CODEC_TO_MIMETYPE (codec station) = None ->
  _async_get_station_mime_type station = guess_type (url station).
Proof.
  intros H. unfold _async_get_station_mime_type. now rewrite H.
Qed.

Lemma mime_type_unknown_codec (station : Station) :
  codec station = lit "UNKNOWN" ->
  _async_get_station_mime_type station = guess_type (url station).
Proof.
  intros H. apply mime_type_table_miss. now rewrite H.
Qed.

Lemma opt_truthy_Some (o : option str) :
  opt_truthy o = true <-> exists s, o = Some s /\ s <> [].
Proof.
  destruct o as [[|c s]|]; simpl; split; try discriminate; eauto.
  - intros [s [H Hs]]; inversion H; subst; congruence.
  - intros _. eexists; split; [reflexivity | discriminate].
  - intros [s [H _]]; discriminate.
Qed.

(* ===================================================================== *)
(** ** Resolving a station *)
(* ===================================================================== *)

Lemma unresolvable_messages_differ : StationUnavailable <> UnknownStreamType.
Proof. discriminate. Qed.

(** C4.  [async_resolve_media] raises "Radio station is no longer
    available" exactly when the directory has no station for the
    identifier; it raises "Could not determine stream type of radio
    station" for a station whose codec is not in the table and whose URL
    gives no mime type; and a value is returned exactly when a station is
    found, a mime type is determined for it and the click call returns:
    the value is the resolved URL of the station with that mime type.
    The one other ending is the exception of the click call. *)
Theorem resolve_media_outcomes (self : RadioMediaSource)
    (item : Item.MediaSourceItem) :
  let found := Radios.station (radios self) (Item.identifier item) in
  let outcome := snd (async_resolve_media self item) in
  (outcome = inl (Raise StationUnavailable) <-> found = None)
  /\ (forall station,
        found = Some station ->
        Dict.get CODEC_TO_MIMETYPE (codec station) = None ->
        opt_truthy (guess_type (url station)) = false ->
        outcome = inl (Raise UnknownStreamType))
  /\ (forall media,
        outcome = inr media <->
        exists station mime_type,
          found = Some station
          /\ _async_get_station_mime_type station = Some mime_type
          /\ mime_type <> []
          /\ Radios.station_click (radios self) (uuid station) = None
          /\ media = {| Play.url := url_resolved station;
                        Play.mime_type := mime_type |})
  /\ (forall error,
        outcome = inl (Propagate error) <->
        exists station,
          found = Some station
          /\ opt_truthy (_async_get_station_mime_type station) = true
          /\ Radios.station_click (radios self) (uuid station) = Some error).
Proof.
  intros found outcome. subst found outcome.
  unfold async_resolve_media.
  destruct (Radios.station (radios self) (Item.identifier item))
    as [station|] eqn:Hfound.
  - destruct (opt_truthy (_async_get_station_mime_type station)) eqn:Hmime;
      cbn [negb].
    + pose proof Hmime as Htruthy.
      apply opt_truthy_Some in Hmime. destruct Hmime as [m [Hm Hne]].
      destruct (Radios.station_click (radios self) (uuid station))
        as [err|] eqn:Hclick; cbn [snd].
      * split; [split; discriminate|]. split; [|split].
        -- intros st Hst Hget Hguess. inversion Hst; subst st.
           rewrite (mime_type_table_miss station Hget) in Hm.
           rewrite Hm in Hguess. destruct m; [congruence | discriminate].
        -- intros media; split; [discriminate|].
           intros [st [m' [Hst [_ [_ [Hc _]]]]]]. inversion Hst; subst st.
           rewrite Hclick in Hc. discriminate.
        -- intros error; split.
           ++ intros H. inversion H; subst error. now exists station.
           ++ intros [st [Hst [_ Hc]]]. inversion Hst; subst st.
              rewrite Hclick in Hc. now inversion Hc.
      * split; [split; discriminate|]. split; [|split].
        -- intros st Hst Hget Hguess. inversion Hst; subst st.
           rewrite (mime_type_table_miss station Hget) in Hm.
           rewrite Hm in Hguess. destruct m; [congruence | discriminate].
        -- intros media; split.
           ++ intros H. inversion H; subst media.
              exists station, m. rewrite Hm. cbn [or_empty]. auto.
           ++ intros [st [m' [Hst [Hm' [_ [_ ->]]]]]].
              inversion Hst; subst st.
              rewrite Hm in *. inversion Hm'; subst. reflexivity.
        -- intros error; split; [discriminate|].
           intros [st [Hst [_ Hc]]]. inversion Hst; subst st.
           rewrite Hclick in Hc. discriminate.
    + cbn [snd]. split; [split; discriminate|]. split; [|split].
      * reflexivity.
      * intros media; split; [discriminate|].
        intros [st [m' [Hst [Hm' [Hne _]]]]]. inversion Hst; subst st.
        rewrite Hm' in Hmime. destruct m'; [congruence | discriminate].
      * intros error; split; [discriminate|].
        intros [st [Hst [Ht _]]]. inversion Hst; subst st.
        rewrite Ht in Hmime. discriminate.
  - cbn [snd]. split; [split; reflexivity|]. split; [|split].
    + discriminate.
    + intros media; split; [discriminate|].
      intros [st [m' [Hst _]]]; discriminate.
    + intros error; split; [discriminate|].
      intros [st [Hst _]]; discriminate.
Qed.

(** C5, as the code has it.  For a station of the directory whose codec is
    ["UNKNOWN"], [async_resolve_media] raises "Could not determine stream
    type of radio station" exactly when the URL gives no mime type; when
    the URL gives one, the click for the station is requested and, if
    that call returns, the station resolves to its resolved URL with the
    guessed type (if the call raises, its exception ends the resolve). *)
Theorem resolve_media_unknown_codec (self : RadioMediaSource)
    (item : Item.MediaSourceItem) (station : Station) :
  Radios.station (radios self) (Item.identifier item) = Some station ->
  codec station = lit "UNKNOWN" ->
  (snd (async_resolve_media self item) = inl (Raise UnknownStreamType)
   <-> opt_truthy (guess_type (url station)) = false)
  /\ (forall mime_type,
        guess_type (url station) = Some mime_type -> mime_type <> [] ->
        async_resolve_media self item
        = ([uuid station],
           match Radios.station_click (radios self) (uuid station) with
           | Some error => inl (Propagate error)
           | None =>
               inr {| Play.url := url_resolved station;
                      Play.mime_type := mime_type |}
           end)).
Proof.
  intros Hfound Hcodec. unfold async_resolve_media. rewrite Hfound.
  rewrite (mime_type_unknown_codec station Hcodec).
  split.
  - destruct (opt_truthy (guess_type (url station))); cbn [negb].
    + destruct (Radios.station_click (radios self) (uuid station));
        cbn [snd]; split; [discriminate | discriminate
                          | discriminate | discriminate].
    + cbn [snd]. split; reflexivity.
  - intros m Hm Hne. rewrite Hm. destruct m as [|c m]; [congruence|].
    cbn [opt_truthy Str.truthy negb or_empty].
    destruct (Radios.station_click (radios self) (uuid station));
      reflexivity.
Qed.

(* ===================================================================== *)
(** ** Building station nodes *)
(* ===================================================================== *)

(** A turn of the loop only ever appends to [items]. *)
Lemma build_stations_step_app (items : list BrowseMediaSource)
    (station : Station) :
  build_stations_step items station
  = items ++ build_stations_step [] station.
Proof.
  unfold build_stations_step.
  destruct (Str.eqb (codec station) (lit "UNKNOWN")
            || negb (opt_truthy (_async_get_station_mime_type station)));
    simpl; auto using app_nil_r.
Qed.

Lemma fold_build_stations (stations : list Station)
    (items : list BrowseMediaSource) :
  fold_left build_stations_step stations items
  = items ++ flat_map (build_stations_step []) stations.
Proof.
  revert items; induction stations as [|s stations IH]; intros items; simpl.
  - now rewrite app_nil_r.
  - rewrite IH, (build_stations_step_app items s). now rewrite app_assoc.
Qed.

Lemma build_stations_flat_map (self : RadioMediaSource)
    (radios : Radios.RadioBrowser) (stations : list Station) :
  _async_build_stations self radios stations
  = flat_map (build_stations_step []) stations.
Proof. unfold _async_build_stations. now rewrite fold_build_stations. Qed.

Lemma build_stations_app (self : RadioMediaSource)
    (radios : Radios.RadioBrowser) (l1 l2 : list Station) :
  _async_build_stations self radios (l1 ++ l2)
  = _async_build_stations self radios l1
    ++ _async_build_stations self radios l2.
Proof. rewrite !build_stations_flat_map. apply flat_map_app. Qed.

(** What one station contributes, by whether it is retained. *)
Lemma build_stations_step_retained (station : Station) :
  build_stations_step [] station
  = if is_retained station
    then [station_node station
            (or_empty (_async_get_station_mime_type station))]
    else [].
Proof.
  unfold build_stations_step, is_retained.
  destruct (Str.eqb (codec station) (lit "UNKNOWN"));
    destruct (opt_truthy (_async_get_station_mime_type station));
    reflexivity.
Qed.

Lemma build_stations_filter_map (self : RadioMediaSource)
    (radios : Radios.RadioBrowser) (stations : list Station) :
  _async_build_stations self radios stations
  = map (fun s => station_node s (or_empty (_async_get_station_mime_type s)))
        (filter is_retained stations).
Proof.
  rewrite build_stations_flat_map.
  induction stations as [|s stations IH]; simpl; auto.
  rewrite build_stations_step_retained, IH.
  destruct (is_retained s); reflexivity.
Qed.

(** C7.  A station whose codec is ["UNKNOWN"] leaves no trace in the list
    built by [_async_build_stations]: the nodes are those of the list with
    that station taken out, whatever its URL. *)
Theorem unknown_codec_builds_no_node (self : RadioMediaSource)
    (radios : Radios.RadioBrowser) (before after : list Station)
    (station : Station) :
  codec station = lit "UNKNOWN" ->
  _async_build_stations self radios (before ++ station :: after)
  = _async_build_stations self radios (before ++ after).
Proof.
  intros Hcodec.
  rewrite !build_stations_app.
  change (station :: after) with ([station] ++ after).
  rewrite build_stations_app. f_equal.
  rewrite (build_stations_flat_map self radios [station]). simpl.
  unfold build_stations_step. rewrite Hcodec, str_eqb_refl. reflexivity.
Qed.

(** C10.  [_async_build_stations] yields one node for each retained
    station (codec other than ["UNKNOWN"], mime type determined), in the
    order of the input; the node of a station carries its uuid as
    identifier, its name as title, its favicon as thumbnail and the mime
    type determined for it, and it can be played and cannot be expanded. *)
Theorem build_stations_nodes (self : RadioMediaSource)
    (radios : Radios.RadioBrowser) (stations : list Station) :
  Forall2
    (fun station node =>
       identifier node = Some (uuid station)
       /\ title node = name station
       /\ thumbnail node = favicon station
       /\ Some (media_content_type node) = _async_get_station_mime_type station
       /\ can_play node = true
       /\ can_expand node = false)
    (filter is_retained stations)
    (_async_build_stations self radios stations).
Proof.
  rewrite build_stations_filter_map.
  induction stations as [|s stations IH]; simpl; [constructor|].
  destruct (is_retained s) eqn:Hs; [|exact IH].
  simpl. constructor; [|exact IH].
  unfold is_retained in Hs. apply andb_true_iff in Hs. destruct Hs as [_ Hm].
  apply opt_truthy_Some in Hm. destruct Hm as [m [Hm _]].
  rewrite Hm. simpl. repeat split.
Qed.

(* ===================================================================== *)
(** ** Local stations *)
(* ===================================================================== *)

(** C3.  [_filter_local_stations] keeps a station of the list exactly when
    its latitude and longitude are both present, its country code is
    ["RU"], and [vincenty] (in kilometres) returns a distance from the
    given origin that is below 100; a station for which [vincenty] returns
    [None] is left out. *)
Theorem filter_local_stations_keeps (self : RadioMediaSource)
    (stations : list Station) (lat lon : float) (station : Station) :
  In station (_filter_local_stations self stations lat lon)
  <-> In station stations
      /\ exists station_latitude station_longitude dist,
           latitude station = Some station_latitude
           /\ longitude station = Some station_longitude
           /\ countrycode station = lit "RU"
           /\ vincenty (lat, lon) (station_latitude, station_longitude) false
              = Some dist
           /\ PrimFloat.ltb dist 100 = true.
Proof.
  unfold _filter_local_stations. rewrite filter_In.
  apply and_iff_compat_l. unfold is_local. split.
  - destruct (latitude station) as [slat|]; [|discriminate].
    destruct (longitude station) as [slon|]; [|discriminate].
    rewrite andb_true_iff, str_eqb_eq. intros [Hcountry Hdist].
    destruct (vincenty (lat, lon) (slat, slon) false) as [dist|] eqn:Hv;
      [|discriminate].
    exists slat, slon, dist. auto.
  - intros [slat [slon [dist [-> [-> [Hcountry [-> Hlt]]]]]]].
    rewrite Hcountry. simpl. exact Hlt.
Qed.

(** The filter keeps the order of the list and copies nothing. *)
Lemma filter_local_stations_sublist (self : RadioMediaSource)
    (stations : list Station) (lat lon : float) :
  _filter_local_stations self stations lat lon
  = filter (is_local lat lon) stations.
Proof. reflexivity. Qed.

(* ===================================================================== *)
(** ** The browse tree *)
(* ===================================================================== *)

Lemma is_root_identifier (item : Item.MediaSourceItem) :
  is_root item = true -> or_empty (Item.identifier item) = [].
Proof.
  unfold is_root. destruct (Item.identifier item) as [[|c s]|];
    simpl; auto; discriminate.
Qed.

Lemma build_by_tag_root (self : RadioMediaSource)
    (radios : Radios.RadioBrowser) (item : Item.MediaSourceItem) :
  is_root item = true ->
  _async_build_by_tag self radios item = [by_category_node].
Proof.
  intros Hroot. unfold _async_build_by_tag.
  rewrite (is_root_identifier item Hroot). simpl. now rewrite Hroot.
Qed.

(** Every node [_async_build_stations] builds is a playable leaf. *)
Lemma build_stations_playable (self : RadioMediaSource)
    (radios : Radios.RadioBrowser) (stations : list Station) :
  Forall (fun node => can_play node = true /\ can_expand node = false)
         (_async_build_stations self radios stations).
Proof.
  rewrite build_stations_filter_map. apply Forall_forall.
  intros node Hin. apply in_map_iff in Hin.
  destruct Hin as [s [<- _]]. split; reflexivity.
Qed.

(** C8.  [async_browse_media] answers any request with one node that
    cannot be played and can be expanded, whose children are the results
    of the popular, by-tag, by-language, local and by-country builders
    appended in that order.  For the root request that is: the popular
    stations, the "By Category" entry, the stations in Russian, the
    stations near the configured coordinate, the stations of the
    country. *)
Theorem browse_media_children (self : RadioMediaSource)
    (item : Item.MediaSourceItem) :
  let node := async_browse_media self item in
  let client := radios self in
  let build := _async_build_stations self client in
  can_play node = false
  /\ can_expand node = true
  /\ children node
     = Some (_async_build_popular self client item
             ++ _async_build_by_tag self client item
             ++ _async_build_by_language self client item
             ++ _async_build_local self client item
             ++ _async_build_by_country self client item)
  /\ (is_root item = true ->
      children node
      = Some (build (Radios.stations client popular_query)
              ++ [by_category_node]
              ++ build (Radios.stations client by_language_query)
              ++ build (_filter_local_stations self
                          (Radios.stations client by_country_query)
                          (Hass.latitude (Hass.config (hass self)))
                          (Hass.longitude (Hass.config (hass self))))
              ++ build (Radios.stations client by_country_query))).
Proof.
  intros node client build. subst node client build.
  split; [reflexivity|]. split; [reflexivity|]. split; [reflexivity|].
  intros Hroot. unfold async_browse_media. cbv [children].
  rewrite (build_by_tag_root self (radios self) item Hroot).
  unfold _async_build_popular, _async_build_by_language,
    _async_build_local, _async_build_by_country.
  rewrite Hroot. reflexivity.
Qed.

Lemma is_russian_iff (s : Station) :
  is_russian s = true
  <-> countrycode s = lit "RU"
      \/ exists a b, str_lower (or_empty (language s)) = a ++ lit "russian" ++ b.
Proof.
  unfold is_russian.
  now rewrite orb_true_iff, str_eqb_eq, str_contains_app.
Qed.

(** The node of each retained station, field by field. *)
Lemma retained_station_nodes (stations : list Station) :
  Forall2
    (fun station node =>
       identifier node = Some (uuid station)
       /\ title node = name station
       /\ thumbnail node = favicon station
       /\ Some (media_content_type node) = _async_get_station_mime_type station
       /\ can_play node = true
       /\ can_expand node = false)
    (filter is_retained stations)
    (map (fun s => station_node s (or_empty (_async_get_station_mime_type s)))
         (filter is_retained stations)).
Proof.
  assert (H : Forall (fun s => is_retained s = true)
                     (filter is_retained stations)).
  { apply Forall_forall. intros s Hs. apply filter_In in Hs. apply Hs. }
  induction H as [|s l Hs Hl IH]; cbn [map]; constructor; [|exact IH].
  unfold is_retained in Hs. apply andb_true_iff in Hs. destruct Hs as [_ Hm].
  apply opt_truthy_Some in Hm. destruct Hm as [m [Hm _]].
  rewrite Hm. cbn. repeat split.
Qed.

(** C9.  For the identifier ["tag/" + tag] with [tag] not empty,
    [_async_build_by_tag] asks the directory for the stations with exactly
    that tag, keeps those whose country code is ["RU"] or whose lower-cased
    language contains ["russian"], and renders them with
    [_async_build_stations]: the nodes returned are, in the order of the
    directory's answer, one playable leaf for each kept station that the
    renderer does not omit, carrying the uuid, name, favicon and mime type
    of its station. *)
Theorem build_by_tag_stations (self : RadioMediaSource)
    (radios : Radios.RadioBrowser) (tag : str) :
  tag <> [] ->
  let item := {| Item.identifier := Some (lit "tag/" ++ tag) |} in
  let stations :=
    Radios.stations radios
      {| Radios.filter_by := TAG_EXACT;
         Radios.filter_term := tag;
         Radios.hide_broken := true;
         Radios.limit := None;
         Radios.order := Some NAME;
         Radios.reverse := Some false |} in
  _async_build_by_tag self radios item
  = _async_build_stations self radios (filter is_russian stations)
  /\ (forall s,
        In s (filter is_russian stations)
        <-> In s stations
            /\ (countrycode s = lit "RU"
                \/ exists a b,
                     str_lower (or_empty (language s))
                     = a ++ lit "russian" ++ b))
  /\ Forall2
       (fun station node =>
          identifier node = Some (uuid station)
          /\ title node = name station
          /\ thumbnail node = favicon station
          /\ Some (media_content_type node)
             = _async_get_station_mime_type station
          /\ can_play node = true
          /\ can_expand node = false)
       (filter is_retained (filter is_russian stations))
       (_async_build_by_tag self radios item).
Proof.
  intros Htag item stations.
  assert (Hbuild : _async_build_by_tag self radios item
                   = _async_build_stations self radios
                       (filter is_russian stations)).
  { unfold _async_build_by_tag, item.
    cbv [Item.identifier or_empty].
    rewrite str_partition_tag.
    destruct tag as [|c tag]; [congruence|]. reflexivity. }
  split; [exact Hbuild|]. split.
  - intros s. rewrite filter_In, is_russian_iff. reflexivity.
  - rewrite Hbuild, build_stations_filter_map.
    apply retained_station_nodes.
Qed.

(* ===================================================================== *)
(** ** Dicts *)
(* ===================================================================== *)

Lemma dict_get_set {V} (d : Dict.dict V) (k k' : str) (v : V) :
  Dict.get (Dict.set k v d) k'
  = if Str.eqb k k' then Some v else Dict.get d k'.
Proof.
  induction d as [|[k0 v0] d IH]; simpl; [reflexivity|].
  destruct (Str.eqb k0 k) eqn:E0; simpl.
  - apply str_eqb_eq in E0; subst k0.
    destruct (Str.eqb k k'); reflexivity.
  - rewrite IH.
    destruct (Str.eqb k0 k') eqn:E1; destruct (Str.eqb k k') eqn:E2; auto.
    apply str_eqb_eq in E1, E2; subst.
    now rewrite str_eqb_refl in E0.
Qed.

Lemma dict_set_keys {V} (d : Dict.dict V) (k : str) (v : V) :
  map fst (Dict.set k v d)
  = match Dict.get d k with
    | Some _ => map fst d
    | None => map fst d ++ [k]
    end.
Proof.
  induction d as [|[k0 v0] d IH]; simpl; [reflexivity|].
  destruct (Str.eqb k0 k) eqn:E0; simpl.
  - apply str_eqb_eq in E0; subst; reflexivity.
  - rewrite IH. destruct (Dict.get d k); reflexivity.
Qed.

Lemma dict_get_None {V} (d : Dict.dict V) (k : str) :
  Dict.get d k = None <-> ~ In k (map fst d).
Proof.
  induction d as [|[k0 v0] d IH]; simpl.
  - split; [intros _ [] | reflexivity].
  - destruct (Str.eqb k0 k) eqn:E0.
    + apply str_eqb_eq in E0. split; [discriminate|].
      intros H; exfalso; apply H; now left.
    + apply str_eqb_neq in E0. rewrite IH. split.
      * intros H [H' | H']; [exact (E0 H') | exact (H H')].
      * intros H H'; apply H; now right.
Qed.

(** Assignment keeps the keys of a dict distinct. *)
Lemma dict_set_NoDup {V} (d : Dict.dict V) (k : str) (v : V) :
  NoDup (map fst d) -> NoDup (map fst (Dict.set k v d)).
Proof.
  intros Hd. rewrite dict_set_keys.
  destruct (Dict.get d k) eqn:E; [exact Hd|].
  apply dict_get_None in E.
  apply NoDup_rev in Hd. rewrite <- (rev_involutive (map fst d ++ [k])).
  apply NoDup_rev. rewrite rev_app_distr. simpl.
  constructor; [|exact Hd]. now rewrite <- in_rev.
Qed.

Lemma dict_In_get {V} (d : Dict.dict V) (k : str) (v : V) :
  NoDup (map fst d) -> In (k, v) d -> Dict.get d k = Some v.
Proof.
  induction d as [|[k0 v0] d IH]; simpl; [intros _ []|].
  intros Hd [H | H]; inversion Hd as [|? ? Hnotin Hd']; subst.
  - inversion H; subst. now rewrite str_eqb_refl.
  - destruct (Str.eqb k0 k) eqn:E0; [|now apply IH].
    apply str_eqb_eq in E0; subst k0.
    exfalso. apply Hnotin. apply in_map_iff. now exists (k, v).
Qed.

(* ===================================================================== *)
(** ** Counting tags *)
(* ===================================================================== *)

(** What one piece adds to the count kept for [T]. *)
Definition piece_counts (T piece : str) : nat :=
  if Str.truthy (Str.strip piece) && Str.eqb (Str.strip piece) T
  then 1 else 0.

Lemma count_tag_get (tag_count : Dict.dict nat) (piece T : str) :
  Dict.get_default (count_tag tag_count piece) T 0
  = Dict.get_default tag_count T 0 + piece_counts T piece.
Proof.
  unfold count_tag, piece_counts, Dict.get_default.
  destruct (Str.truthy (Str.strip piece)); simpl; [|lia].
  rewrite dict_get_set.
  destruct (Str.eqb (Str.strip piece) T) eqn:E; [|lia].
  apply str_eqb_eq in E; subst T. reflexivity.
Qed.

Lemma fold_count_tag_get (pieces : list str) (tag_count : Dict.dict nat)
    (T : str) :
  Dict.get_default (fold_left count_tag pieces tag_count) T 0
  = Dict.get_default tag_count T 0
    + length (filter (fun t => Str.eqb t T)
                (filter Str.truthy (map Str.strip pieces))).
Proof.
  revert tag_count; induction pieces as [|piece pieces IH];
    intros tag_count; simpl; [lia|].
  rewrite IH, count_tag_get. unfold piece_counts.
  destruct (Str.truthy (Str.strip piece)); simpl; [|lia].
  destruct (Str.eqb (Str.strip piece) T); simpl; lia.
Qed.

Lemma station_tags_falsy (station : Station) :
  opt_truthy (tags station) = false -> station_tags station = [].
Proof.
  unfold station_tags. destruct (tags station) as [[|c s]|];
    simpl; try discriminate; reflexivity.
Qed.

Lemma count_station_get (tag_count : Dict.dict nat) (station : Station)
    (T : str) :
  Dict.get_default (count_station tag_count station) T 0
  = Dict.get_default tag_count T 0
    + length (filter (fun t => Str.eqb t T) (station_tags station)).
Proof.
  unfold count_station.
  destruct (opt_truthy (tags station)) eqn:E.
  - apply fold_count_tag_get.
  - rewrite (station_tags_falsy station E). simpl. lia.
Qed.

Lemma tag_occurrences_cons (T : str) (station : Station)
    (stations : list Station) :
  tag_occurrences T (station :: stations)
  = length (filter (fun t => Str.eqb t T) (station_tags station))
    + tag_occurrences T stations.
Proof.
  unfold tag_occurrences, tag_pairs. simpl.
  rewrite filter_app, length_app. f_equal.
  induction (station_tags station) as [|t l IH]; simpl; auto.
  destruct (Str.eqb t T); simpl; auto.
Qed.

Lemma fold_count_station_get (stations : list Station)
    (tag_count : Dict.dict nat) (T : str) :
  Dict.get_default (fold_left count_station stations tag_count) T 0
  = Dict.get_default tag_count T 0 + tag_occurrences T stations.
Proof.
  revert tag_count; induction stations as [|s stations IH];
    intros tag_count; simpl.
  - unfold tag_occurrences; simpl; lia.
  - rewrite IH, count_station_get, tag_occurrences_cons. lia.
Qed.

(** Two invariants of [tag_count]: its keys are distinct and every count
    it holds is positive. *)
Definition tag_count_ok (tag_count : Dict.dict nat) : Prop :=
  NoDup (map fst tag_count)
  /\ forall k v, Dict.get tag_count k = Some v -> 0 < v.

Lemma count_tag_ok (tag_count : Dict.dict nat) (piece : str) :
  tag_count_ok tag_count -> tag_count_ok (count_tag tag_count piece).
Proof.
  intros [Hnd Hpos]. unfold count_tag.
  destruct (Str.truthy (Str.strip piece)); [|split; assumption].
  split.
  - now apply dict_set_NoDup.
  - intros k v. rewrite dict_get_set.
    destruct (Str.eqb (Str.strip piece) k); [|apply Hpos].
    intros H; inversion H; lia.
Qed.

Lemma count_station_ok (tag_count : Dict.dict nat) (station : Station) :
  tag_count_ok tag_count -> tag_count_ok (count_station tag_count station).
Proof.
  unfold count_station.
  destruct (opt_truthy (tags station)); [|auto].
  generalize (Str.split (N_of_ascii ",") (or_empty (tags station))).
  intros pieces; revert tag_count.
  induction pieces as [|p pieces IH]; intros tag_count H; simpl; auto.
  apply IH. now apply count_tag_ok.
Qed.

Lemma collect_tag_count_ok (stations : list Station) :
  tag_count_ok (collect_tag_count stations).
Proof.
  unfold collect_tag_count.
  assert (H : tag_count_ok (@nil (str * nat))).
  { split; [constructor | intros k v; discriminate]. }
  revert H. generalize (@nil (str * nat)) as tag_count.
  induction stations as [|s stations IH]; intros tag_count H; simpl; auto.
  apply IH. now apply count_station_ok.
Qed.

(* ===================================================================== *)
(** ** Sorting *)
(* ===================================================================== *)

Section ListSortFacts.

Variables (A K : Type) (key : A -> K) (lt : K -> K -> bool).

(** [lt] is a strict weak order: asymmetric, and its negation is
    transitive. *)
Hypothesis lt_asym : forall a b, lt a b = true -> lt b a = false.
Hypothesis lt_negtrans :
  forall a b c, lt b a = false -> lt c b = false -> lt c a = false.

(** [x] may stand before [y] in the sorted list. *)
Definition in_order (reverse : bool) (x y : A) : Prop :=
  (if reverse then lt (key x) (key y) else lt (key y) (key x)) = false.

Lemma insort_perm (reverse : bool) (x : A) (l : list A) :
  Permutation (insort key lt reverse x l) (x :: l).
Proof.
  induction l as [|y l IH]; simpl; [reflexivity|].
  destruct (if reverse then lt (key x) (key y) else lt (key y) (key x)).
  - rewrite IH. apply perm_swap.
  - reflexivity.
Qed.

Lemma list_sort_perm (reverse : bool) (l : list A) :
  Permutation (list_sort key lt reverse l) l.
Proof.
  induction l as [|x l IH]; simpl; [reflexivity|].
  rewrite insort_perm. now constructor.
Qed.

Lemma list_sort_length (reverse : bool) (l : list A) :
  length (list_sort key lt reverse l) = length l.
Proof. apply Permutation_length, list_sort_perm. Qed.

Lemma list_sort_In (reverse : bool) (l : list A) (x : A) :
  In x (list_sort key lt reverse l) <-> In x l.
Proof.
  split; apply Permutation_in;
    [|symmetry]; apply list_sort_perm.
Qed.

(** The sort is stable: elements whose keys [lt] does not tell apart
    (those picked out by [p]) come out in the order they went in. *)
Lemma insort_stable (p : A -> bool) (reverse : bool) (x : A) (l : list A) :
  (forall a b, p a = true -> p b = true -> lt (key a) (key b) = false) ->
  filter p (insort key lt reverse x l) = filter p (x :: l).
Proof.
  intros Hp. induction l as [|y l IH]; [reflexivity|].
  cbn [insort].
  destruct (if reverse then lt (key x) (key y) else lt (key y) (key x))
    eqn:E; [|reflexivity].
  cbn [filter] in *. rewrite IH.
  destruct (p x) eqn:Hx; [|reflexivity].
  destruct (p y) eqn:Hy; [|reflexivity].
  destruct reverse; rewrite Hp in E by assumption; discriminate.
Qed.

Lemma list_sort_stable (p : A -> bool) (reverse : bool) (l : list A) :
  (forall a b, p a = true -> p b = true -> lt (key a) (key b) = false) ->
  filter p (list_sort key lt reverse l) = filter p l.
Proof.
  intros Hp. induction l as [|x l IH]; [reflexivity|].
  cbn [list_sort fold_right].
  rewrite (insort_stable p reverse x _ Hp).
  cbn [filter]. fold (list_sort key lt reverse l). now rewrite IH.
Qed.

Lemma in_order_trans (reverse : bool) (x y z : A) :
  in_order reverse x y -> in_order reverse y z -> in_order reverse x z.
Proof using lt_negtrans.
  unfold in_order. destruct reverse; intros Hxy Hyz.
  - exact (lt_negtrans _ _ _ Hyz Hxy).
  - exact (lt_negtrans _ _ _ Hxy Hyz).
Qed.

Lemma insort_sorted (reverse : bool) (x : A) (l : list A) :
  StronglySorted (in_order reverse) l ->
  StronglySorted (in_order reverse) (insort key lt reverse x l).
Proof using lt_asym lt_negtrans.
  induction 1 as [|y l Hl IH Hy]; simpl.
  - repeat constructor.
  - destruct (if reverse then lt (key x) (key y) else lt (key y) (key x))
      eqn:E.
    + constructor; [exact IH|].
      apply (Permutation_Forall (Permutation_sym (insort_perm reverse x l))).
      constructor; [|exact Hy].
      unfold in_order. destruct reverse; now apply lt_asym.
    + constructor; [now constructor|].
      constructor; [exact E|].
      apply Forall_forall. intros z Hz.
      apply in_order_trans with y; [exact E|].
      rewrite Forall_forall in Hy. now apply Hy.
Qed.

Lemma list_sort_sorted (reverse : bool) (l : list A) :
  StronglySorted (in_order reverse) (list_sort key lt reverse l).
Proof using lt_asym lt_negtrans.
  induction l as [|x l IH]; simpl; [constructor|].
  now apply insort_sorted.
Qed.

End ListSortFacts.

Arguments in_order {A K} key lt reverse x y.

Lemma StronglySorted_map {A B} (f : A -> B) (R : B -> B -> Prop)
    (l : list A) :
  StronglySorted (fun x y => R (f x) (f y)) l -> StronglySorted R (map f l).
Proof.
  induction 1 as [|x l Hl IH Hx]; simpl; constructor; auto.
  rewrite Forall_forall in *. intros y Hy.
  apply in_map_iff in Hy. destruct Hy as [z [<- Hz]]. auto.
Qed.

Lemma str_ltb_negtrans (a b c : str) :
  Str.ltb b a = false -> Str.ltb c b = false -> Str.ltb c a = false.
Proof.
  rewrite !str_ltb_false_leb. intros H1 H2.
  now apply str_leb_trans with b.
Qed.

(* ===================================================================== *)
(** ** The tag index *)
(* ===================================================================== *)

Lemma firstn_In {A} (n : nat) (l : list A) (x : A) :
  In x (firstn n l) -> In x l.
Proof.
  intros H. rewrite <- (firstn_skipn n l). apply in_or_app; now left.
Qed.

(** The rows of the ranking are entries of [tag_count]. *)
Lemma ranked_tags_items (tag_count : Dict.dict nat) (row : Tag.row) :
  In row (ranked_tags tag_count) ->
  In (Tag.name row, Tag.stationcount row) tag_count.
Proof.
  unfold ranked_tags, Dict.items. intros H.
  apply list_sort_In in H. apply firstn_In in H.
  apply list_sort_In in H. apply in_map_iff in H.
  destruct H as [[k v] [<- H]]. exact H.
Qed.

Lemma ranked_tags_length (tag_count : Dict.dict nat) :
  length (ranked_tags tag_count) <= 100.
Proof.
  unfold ranked_tags. rewrite list_sort_length. apply firstn_le_length.
Qed.

Lemma ranked_tags_sorted (tag_count : Dict.dict nat) :
  StronglySorted (fun a b => Str.leb a b = true)
                 (map Tag.name (ranked_tags tag_count)).
Proof.
  apply StronglySorted_map. unfold ranked_tags.
  set (top := firstn 100 _).
  generalize (list_sort_sorted _ _ Tag.name Str.ltb str_ltb_asym
                str_ltb_negtrans false top).
  apply StronglySorted_ind; [constructor|].
  intros x l Hl IH Hx. constructor; [exact IH|].
  rewrite Forall_forall in *. intros y Hy.
  apply str_ltb_false_leb. exact (Hx y Hy).
Qed.

Lemma ranked_tags_NoDup (tag_count : Dict.dict nat) :
  NoDup (map fst tag_count) ->
  NoDup (map Tag.name (ranked_tags tag_count)).
Proof.
  intros Hnd. unfold ranked_tags, Dict.items.
  set (rows := map _ tag_count).
  assert (Hrows : NoDup (map Tag.name rows)).
  { subst rows. rewrite map_map.
    erewrite map_ext; [exact Hnd|]. intros [k v]; reflexivity. }
  set (by_count := list_sort Tag.stationcount Nat.ltb true rows).
  assert (Hcount : NoDup (map Tag.name by_count)).
  { eapply Permutation_NoDup; [|exact Hrows].
    apply Permutation_map, Permutation_sym, list_sort_perm. }
  eapply Permutation_NoDup.
  - apply Permutation_map, Permutation_sym, list_sort_perm.
  - rewrite <- (firstn_skipn 100 by_count), map_app in Hcount.
    exact (NoDup_app_remove_r _ _ Hcount).
Qed.

(** C2.  After the two loops, the count [tag_count] holds for a tag [T]
    (0 when [T] is no key) is the number of pairs of a station and a
    trimmed, non-empty comma-separated component of its tags field that is
    equal to [T], code point for code point; [T] is a key exactly when
    there is such a pair, and a row of the ranking carries that number. *)
Theorem tag_count_is_occurrences (stations : list Station) (T : str) :
  let tag_count := collect_tag_count stations in
  Dict.get_default tag_count T 0 = tag_occurrences T stations
  /\ (Dict.get tag_count T = None <-> tag_occurrences T stations = 0)
  /\ (forall row,
        In row (ranked_tags tag_count) -> Tag.name row = T ->
        Tag.stationcount row = tag_occurrences T stations).
Proof.
  intros tag_count.
  assert (Hget : Dict.get_default tag_count T 0 = tag_occurrences T stations).
  { unfold tag_count, collect_tag_count.
    rewrite fold_count_station_get. reflexivity. }
  destruct (collect_tag_count_ok stations) as [Hnd Hpos].
  fold tag_count in Hnd, Hpos.
  split; [exact Hget|]. split.
  - rewrite <- Hget. unfold Dict.get_default.
    destruct (Dict.get tag_count T) as [v|] eqn:E.
    + specialize (Hpos T v E). split; [discriminate | lia].
    + split; reflexivity.
  - intros row Hrow Hname. rewrite <- Hget. unfold Dict.get_default.
    apply ranked_tags_items in Hrow. rewrite Hname in Hrow.
    now rewrite (dict_In_get tag_count T _ Hnd Hrow).
Qed.

(** C1.  For the identifier ["tag"], [_async_build_by_tag] returns at most
    100 nodes, one per row of the ranking and each an expandable container
    with identifier ["tag/" + name]; the names follow one another in
    increasing order of Python's [str] comparison (lexicographic on code
    points), without repetition. *)
Theorem tag_index_bounded_and_sorted (self : RadioMediaSource)
    (radios : Radios.RadioBrowser) :
  let item := {| Item.identifier := Some (lit "tag") |} in
  let nodes := _async_build_by_tag self radios item in
  let names :=
    map Tag.name
      (ranked_tags
         (collect_tag_count (Radios.stations radios tag_index_query))) in
  length nodes <= 100
  /\ map identifier nodes = map (fun tag => Some (lit "tag/" ++ tag)) names
  /\ StronglySorted (fun a b => Str.leb a b = true) names
  /\ NoDup names
  /\ Forall (fun node => can_play node = false /\ can_expand node = true)
            nodes.
Proof.
  intros item nodes names.
  assert (Hnodes : nodes
            = map tag_node
                (ranked_tags
                   (collect_tag_count
                      (Radios.stations radios tag_index_query)))).
  { reflexivity. }
  split; [|split; [|split; [|split]]].
  - rewrite Hnodes, length_map. apply ranked_tags_length.
  - rewrite Hnodes. unfold names. rewrite !map_map. reflexivity.
  - apply ranked_tags_sorted.
  - apply ranked_tags_NoDup. apply collect_tag_count_ok.
  - rewrite Hnodes. apply Forall_forall. intros node Hin.
    apply in_map_iff in Hin. destruct Hin as [tag [<- _]].
    split; reflexivity.
Qed.

(* ===================================================================== *)
(** ** Routing by identifier *)
(* ===================================================================== *)

(** [partition] either finds no separator and returns the string whole,
    or cuts it at the first one. *)
Lemma str_partition_cut (sep : N) (s : str) :
  (Str.partition sep s = (s, [], []) /\ ~ In sep s)
  \/ exists h t,
       Str.partition sep s = (h, [sep], t)
       /\ s = h ++ sep :: t /\ ~ In sep h.
Proof.
  induction s as [|c s IH]; simpl.
  - left. split; [reflexivity | intros []].
  - destruct (N.eqb c sep) eqn:E.
    + apply N.eqb_eq in E; subst c.
      right. exists [], s. repeat split. intros [].
    + apply N.eqb_neq in E.
      destruct IH as [[Hp Hno] | [h [t [Hp [Hs Hno]]]]]; rewrite Hp.
      * left. split; [reflexivity|].
        intros [H | H]; [exact (E H) | exact (Hno H)].
      * right. exists (c :: h), t.
        split; [reflexivity|]. split; [simpl; now f_equal|].
        intros [H | H]; [exact (E H) | exact (Hno H)].
Qed.

Lemma is_root_false (item : Item.MediaSourceItem) :
  is_root item = false
  <-> exists id, Item.identifier item = Some id /\ id <> [].
Proof.
  unfold is_root. rewrite negb_false_iff. apply opt_truthy_Some.
Qed.

(** X1.  Below the root only the by-tag builder contributes: for an
    identifier that is neither [None] nor empty, the children of the node
    [async_browse_media] returns are the result of [_async_build_by_tag],
    and the popular, by-language, local and by-country builders return
    nothing. *)
Theorem browse_media_below_root (self : RadioMediaSource)
    (item : Item.MediaSourceItem) :
  is_root item = false ->
  _async_build_popular self (radios self) item = []
  /\ _async_build_by_language self (radios self) item = []
  /\ _async_build_local self (radios self) item = []
  /\ _async_build_by_country self (radios self) item = []
  /\ children (async_browse_media self item)
     = Some (_async_build_by_tag self (radios self) item).
Proof.
  intros Hroot.
  unfold async_browse_media, _async_build_popular, _async_build_by_language,
    _async_build_local, _async_build_by_country.
  rewrite Hroot. cbv [children].
  repeat split. simpl. now rewrite app_nil_r.
Qed.

(** The first component of the partition is ["tag"] only for the
    identifier ["tag"] and for those that begin with ["tag/"]. *)
Lemma partition_category_tag (id : str) :
  Str.eqb (fst (fst (Str.partition (N_of_ascii "/") id))) (lit "tag") = true ->
  id = lit "tag" \/ Str.startswith (lit "tag/") id = true.
Proof.
  intros H. apply str_eqb_eq in H.
  destruct (str_partition_cut (N_of_ascii "/") id)
    as [[Hp _] | [h [t [Hp [Hid _]]]]]; rewrite Hp in H; simpl in H.
  - now left.
  - right. subst h. rewrite Hid. apply str_startswith_app.
    exists t. reflexivity.
Qed.

(** X2.  An identifier that is not empty, is not ["tag"] and does not
    begin with ["tag/"] matches no builder: [_async_build_by_tag] returns
    the empty list and the node [async_browse_media] returns has no
    children. *)
Theorem browse_media_unknown_identifier (self : RadioMediaSource)
    (item : Item.MediaSourceItem) (id : str) :
  Item.identifier item = Some id ->
  id <> [] ->
  id <> lit "tag" ->
  Str.startswith (lit "tag/") id = false ->
  _async_build_by_tag self (radios self) item = []
  /\ children (async_browse_media self item) = Some [].
Proof.
  intros Hid Hne Htag Hprefix.
  assert (Hroot : is_root item = false).
  { apply is_root_false. now exists id. }
  assert (Hby : _async_build_by_tag self (radios self) item = []).
  { unfold _async_build_by_tag. rewrite Hroot, Hid.
    cbv [or_empty].
    destruct (Str.partition (N_of_ascii "/") id) as [[category sep] tag]
      eqn:Hp.
    destruct (Str.eqb category (lit "tag")) eqn:Hc; [|reflexivity].
    exfalso.
    destruct (partition_category_tag id) as [H | H].
    - rewrite Hp. exact Hc.
    - exact (Htag H).
    - rewrite H in Hprefix. discriminate. }
  split; [exact Hby|].
  unfold async_browse_media, _async_build_popular, _async_build_by_language,
    _async_build_local, _async_build_by_country.
  rewrite Hroot, Hby. reflexivity.
Qed.

(** X3.  The identifier ["tag/"], with nothing after the slash, is
    answered like ["tag"]: with the tag index, not with a query for the
    empty tag. *)
Theorem build_by_tag_empty_name (self : RadioMediaSource)
    (radios : Radios.RadioBrowser) :
  _async_build_by_tag self radios {| Item.identifier := Some (lit "tag/") |}
  = map tag_node
      (ranked_tags
         (collect_tag_count (Radios.stations radios tag_index_query)))
  /\ _async_build_by_tag self radios {| Item.identifier := Some (lit "tag/") |}
     = _async_build_by_tag self radios {| Item.identifier := Some (lit "tag") |}.
Proof.
  split; unfold _async_build_by_tag; cbv [Item.identifier or_empty].
  - change (lit "tag/") with (lit "tag/" ++ []).
    rewrite str_partition_tag. reflexivity.
  - change (lit "tag/") with (lit "tag/" ++ []).
    rewrite str_partition_tag. reflexivity.
Qed.

(* ===================================================================== *)
(** ** Clicks and playable nodes *)
(* ===================================================================== *)

(** X4.  The click is requested only once a station is found and its
    mime type determined, and it is requested before the return.  So
    when [Unresolvable] is raised no click call has been made; when a
    value is returned exactly one was made, for the station found, and it
    returned; and when the click call raises, its exception ends the
    resolve although the station and its stream type were found. *)
Theorem resolve_media_click (self : RadioMediaSource)
    (item : Item.MediaSourceItem) :
  let found := Radios.station (radios self) (Item.identifier item) in
  let clicks := fst (async_resolve_media self item) in
  let outcome := snd (async_resolve_media self item) in
  (clicks = [] <-> exists e, outcome = inl (Raise e))
  /\ (forall media,
        outcome = inr media ->
        exists station,
          found = Some station
          /\ clicks = [uuid station]
          /\ Radios.station_click (radios self) (uuid station) = None)
  /\ (forall station error,
        found = Some station ->
        opt_truthy (_async_get_station_mime_type station) = true ->
        Radios.station_click (radios self) (uuid station) = Some error ->
        clicks = [uuid station] /\ outcome = inl (Propagate error)).
Proof.
  intros found clicks outcome. subst found clicks outcome.
  unfold async_resolve_media.
  destruct (Radios.station (radios self) (Item.identifier item))
    as [station|].
  - destruct (opt_truthy (_async_get_station_mime_type station)) eqn:Hmime;
      cbn [negb].
    + destruct (Radios.station_click (radios self) (uuid station))
        as [err|] eqn:Hclick; cbn [fst snd].
      * split; [split; [discriminate | intros [e H]; discriminate]|].
        split; [discriminate|].
        intros st error Hst _ Hc. injection Hst as <-.
        rewrite Hclick in Hc. injection Hc as <-. split; reflexivity.
      * split; [split; [discriminate | intros [e H]; discriminate]|].
        split.
        -- intros media _. exists station. repeat split. exact Hclick.
        -- intros st error Hst _ Hc. injection Hst as <-.
           rewrite Hclick in Hc. discriminate.
    + cbn [fst snd]. split; [split; eauto|]. split; [discriminate|].
      intros st error Hst Ht _. injection Hst as <-.
      rewrite Ht in Hmime. discriminate.
  - cbn [fst snd]. split; [split; eauto|]. split; discriminate.
Qed.

(** A station is kept by the loop exactly when its codec is not the
    sentinel and either the table knows the codec or the URL gives a
    type. *)
Lemma is_retained_iff (station : Station) :
  is_retained station = true
  <-> codec station <> lit "UNKNOWN"
      /\ ((exists mime_type, In (codec station, mime_type) CODEC_TO_MIMETYPE)
          \/ opt_truthy (guess_type (url station)) = true).
Proof.
  unfold is_retained.
  rewrite andb_true_iff, negb_true_iff, str_eqb_neq.
  apply and_iff_compat_l.
  unfold _async_get_station_mime_type.
  destruct (Dict.get CODEC_TO_MIMETYPE (codec station)) as [m|] eqn:Hget.
  - pose proof (dict_get_In _ _ _ Hget) as Hin.
    destruct (mime_type_table_hit station m Hin) as [_ Ht].
    simpl. rewrite Ht. simpl. rewrite Ht.
    split; [intros _; left; now exists m | reflexivity].
  - simpl. split; [now right|].
    intros [[m Hin] | H]; [|exact H].
    destruct (mime_type_table_hit station m Hin) as [Hget' _].
    rewrite Hget in Hget'. discriminate.
Qed.

(** X5.  A one-station list builds no node exactly when the codec of the
    station is ["UNKNOWN"], or when the codec is none of the four of the
    table and the URL gives no mime type. *)
Theorem station_omitted_iff (self : RadioMediaSource)
    (radios : Radios.RadioBrowser) (station : Station) :
  _async_build_stations self radios [station] = []
  <-> codec station = lit "UNKNOWN"
      \/ (~ In (codec station) (map fst CODEC_TO_MIMETYPE)
          /\ opt_truthy (guess_type (url station)) = false).
Proof.
  rewrite build_stations_filter_map. cbn [filter].
  destruct (is_retained station) eqn:Hr; cbn [map].
  - apply is_retained_iff in Hr. destruct Hr as [Hc Hm]. split.
    + discriminate.
    + intros [H | [Hkey Hguess]]; [contradiction|].
      destruct Hm as [[m Hin] | Hg].
      * exfalso. apply Hkey. apply in_map_iff. now exists (codec station, m).
      * rewrite Hg in Hguess. discriminate.
  - split; [|reflexivity]. intros _.
    destruct (Str.eqb (codec station) (lit "UNKNOWN")) eqn:Hc.
    + left. now apply str_eqb_eq.
    + right. apply str_eqb_neq in Hc.
      destruct (opt_truthy (guess_type (url station))) eqn:Hg.
      * assert (H : is_retained station = true).
        { apply is_retained_iff. split; [exact Hc | now right]. }
        rewrite H in Hr. discriminate.
      * split; [|reflexivity]. intros Hkey.
        apply in_map_iff in Hkey. destruct Hkey as [[k m] [Hk Hin]].
        simpl in Hk. subst k.
        assert (H : is_retained station = true).
        { apply is_retained_iff. split; [exact Hc|]. left. now exists m. }
        rewrite H in Hr. discriminate.
Qed.

(** X6.  The list built never has more nodes than there are stations; in
    particular the popular list has at most 250 nodes when the directory
    honours the limit of the query. *)
Theorem build_popular_at_most_250 (self : RadioMediaSource)
    (radios : Radios.RadioBrowser) (item : Item.MediaSourceItem) :
  (forall stations,
      length (_async_build_stations self radios stations) <= length stations)
  /\ (length (Radios.stations radios popular_query) <= 250 ->
      length (_async_build_popular self radios item) <= 250).
Proof.
  assert (H : forall stations,
             length (_async_build_stations self radios stations)
             <= length stations).
  { intros stations. rewrite build_stations_filter_map, length_map.
    apply filter_length_le. }
  split; [exact H|].
  intros Hlimit. unfold _async_build_popular.
  destruct (is_root item); simpl; [|lia].
  specialize (H (Radios.stations radios popular_query)). lia.
Qed.

(** X7.  At the root, every node of the local list is also a node of the
    by-country list: both come from the same query, the local one through
    the proximity filter. *)
Theorem local_nodes_are_country_nodes (self : RadioMediaSource)
    (radios : Radios.RadioBrowser) (item : Item.MediaSourceItem)
    (node : BrowseMediaSource) :
  In node (_async_build_local self radios item) ->
  In node (_async_build_by_country self radios item).
Proof.
  unfold _async_build_local, _async_build_by_country.
  destruct (is_root item); [|intros []].
  cbv zeta. rewrite !build_stations_filter_map, !in_map_iff.
  intros [s [Hnode Hs]]. exists s. split; [exact Hnode|].
  apply filter_In in Hs. destruct Hs as [Hs Hr].
  unfold _filter_local_stations in Hs. apply filter_In in Hs.
  apply filter_In. split; [apply Hs | exact Hr].
Qed.

(** X8.  Every node built for a list of stations belongs to a station of
    the list whose uuid is its identifier.  If the directory returns that
    station for the identifier, resolving the node never raises
    [Unresolvable]: the click for the station is requested and, when that
    call returns, the resolved URL of the station is played with the
    content type the node shows; when it raises, its exception is the
    outcome. *)
Theorem built_node_resolves (self : RadioMediaSource)
    (client : Radios.RadioBrowser) (stations : list Station)
    (node : BrowseMediaSource) :
  In node (_async_build_stations self client stations) ->
  exists station,
    In station stations
    /\ identifier node = Some (uuid station)
    /\ (Radios.station (radios self) (identifier node) = Some station ->
        async_resolve_media self {| Item.identifier := identifier node |}
        = ([uuid station],
           match Radios.station_click (radios self) (uuid station) with
           | Some error => inl (Propagate error)
           | None =>
               inr {| Play.url := url_resolved station;
                      Play.mime_type := media_content_type node |}
           end)).
Proof.
  rewrite build_stations_filter_map, in_map_iff.
  intros [s [<- Hs]]. apply filter_In in Hs. destruct Hs as [Hin Hr].
  exists s. split; [exact Hin|]. split; [reflexivity|].
  intros Hfound. unfold async_resolve_media.
  cbv [Item.identifier]. rewrite Hfound.
  unfold is_retained in Hr. apply andb_true_iff in Hr.
  destruct Hr as [_ Hm]. rewrite Hm. cbn [negb].
  destruct (Radios.station_click (radios self) (uuid s)); reflexivity.
Qed.

(* ===================================================================== *)
(** ** Trimming and splitting *)
(* ===================================================================== *)

Lemma str_lstrip_suffix (s : str) :
  exists p, s = p ++ Str.lstrip s.
Proof.
  induction s as [|c s [p IH]]; simpl.
  - now exists [].
  - destruct (Str.isspace c).
    + exists (c :: p). simpl. now f_equal.
    + now exists [].
Qed.

Lemma str_lstrip_head (s : str) (c : N) (r : str) :
  Str.lstrip s = c :: r -> Str.isspace c = false.
Proof.
  induction s as [|d s IH]; simpl; [discriminate|].
  destruct (Str.isspace d) eqn:E; [exact IH|].
  intros H; inversion H; subst; exact E.
Qed.

Lemma str_lstrip_fixed (s : str) :
  (forall c r, s = c :: r -> Str.isspace c = false) -> Str.lstrip s = s.
Proof.
  destruct s as [|c r]; [reflexivity|].
  intros H. simpl. now rewrite (H c r eq_refl).
Qed.

Lemma str_lstrip_idem (s : str) : Str.lstrip (Str.lstrip s) = Str.lstrip s.
Proof.
  apply str_lstrip_fixed. intros c r H. exact (str_lstrip_head s c r H).
Qed.

(** [rstrip] keeps a prefix of the string. *)
Lemma str_rstrip_prefix (s : str) : exists q, s = Str.rstrip s ++ q.
Proof.
  unfold Str.rstrip. destruct (str_lstrip_suffix (rev s)) as [p Hp].
  exists (rev p).
  rewrite <- rev_app_distr, <- Hp. now rewrite rev_involutive.
Qed.

(** Trimming twice is trimming once. *)
Lemma str_strip_idem (s : str) : Str.strip (Str.strip s) = Str.strip s.
Proof.
  unfold Str.strip.
  assert (Hl : Str.lstrip (Str.rstrip (Str.lstrip s))
               = Str.rstrip (Str.lstrip s)).
  { apply str_lstrip_fixed. intros c r Hr.
    destruct (str_rstrip_prefix (Str.lstrip s)) as [q Hq].
    rewrite Hr in Hq. simpl in Hq.
    exact (str_lstrip_head s _ _ Hq). }
  rewrite Hl. unfold Str.rstrip at 1 2.
  now rewrite rev_involutive, str_lstrip_idem.
Qed.

(** Trimming only removes characters. *)
Lemma str_strip_In (s : str) (c : N) : In c (Str.strip s) -> In c s.
Proof.
  unfold Str.strip. intros H.
  destruct (str_lstrip_suffix s) as [p Hp].
  destruct (str_rstrip_prefix (Str.lstrip s)) as [q Hq].
  rewrite Hp, Hq. apply in_or_app; right. apply in_or_app; now left.
Qed.

(** No piece of a split holds the separator. *)
Lemma str_split_no_sep (sep : N) (s : str) :
  Forall (fun piece => ~ In sep piece) (Str.split sep s).
Proof.
  induction s as [|c s IH]; simpl.
  - constructor; [intros [] | constructor].
  - destruct (N.eqb c sep) eqn:E.
    + constructor; [intros [] | exact IH].
    + apply N.eqb_neq in E.
      destruct (Str.split sep s) as [|p ps].
      * constructor; [|constructor]. intros [H | []]. exact (E H).
      * inversion IH as [|? ? Hp Hps]; subst.
        constructor; [|exact Hps].
        intros [H | H]; [exact (E H) | exact (Hp H)].
Qed.

(* ===================================================================== *)
(** ** What the tag count holds *)
(* ===================================================================== *)

Lemma dict_set_key_In {V} (d : Dict.dict V) (k k' : str) (v : V) :
  In k' (map fst (Dict.set k v d)) -> k' = k \/ In k' (map fst d).
Proof.
  rewrite dict_set_keys. destruct (Dict.get d k); [now right|].
  intros H. apply in_app_or in H. destruct H as [H | [H | []]]; auto.
Qed.

Lemma count_tag_clean (tag_count : Dict.dict nat) (piece : str) :
  ~ In (N_of_ascii ",") piece ->
  Forall clean_tag (map fst tag_count) ->
  Forall clean_tag (map fst (count_tag tag_count piece)).
Proof.
  intros Hpiece Hd. unfold count_tag.
  destruct (Str.truthy (Str.strip piece)) eqn:Ht; [|exact Hd].
  rewrite Forall_forall in *. intros k Hk.
  apply dict_set_key_In in Hk. destruct Hk as [-> | Hk]; [|now apply Hd].
  split; [|split].
  - intros H. rewrite H in Ht. discriminate.
  - apply str_strip_idem.
  - intros H. apply Hpiece. exact (str_strip_In _ _ H).
Qed.

Lemma fold_count_tag_clean (pieces : list str) (tag_count : Dict.dict nat) :
  Forall (fun piece => ~ In (N_of_ascii ",") piece) pieces ->
  Forall clean_tag (map fst tag_count) ->
  Forall clean_tag (map fst (fold_left count_tag pieces tag_count)).
Proof.
  intros Hp; revert tag_count.
  induction Hp as [|piece pieces Hpiece Hp IH]; intros tag_count Hd; simpl.
  - exact Hd.
  - apply IH. now apply count_tag_clean.
Qed.

Lemma collect_tag_count_clean (stations : list Station) :
  Forall clean_tag (map fst (collect_tag_count stations)).
Proof.
  unfold collect_tag_count.
  assert (H : Forall clean_tag (map fst (@nil (str * nat)))) by constructor.
  revert H. generalize (@nil (str * nat)) as tag_count.
  induction stations as [|s stations IH]; intros tag_count H; simpl; auto.
  apply IH. unfold count_station.
  destruct (opt_truthy (tags s)); [|exact H].
  apply fold_count_tag_clean; [apply str_split_no_sep | exact H].
Qed.

(** X9.  Every key of [tag_count], and so every tag name of the index,
    is a trimmed tag: it is not empty, trimming it again changes nothing,
    and it holds no comma. *)
Theorem tag_names_are_trimmed (stations : list Station) (tag : str) :
  In tag (map fst (collect_tag_count stations))
  \/ In tag (map Tag.name (ranked_tags (collect_tag_count stations))) ->
  tag <> [] /\ Str.strip tag = tag /\ ~ In (N_of_ascii ",") tag.
Proof.
  intros H.
  assert (Hkey : In tag (map fst (collect_tag_count stations))).
  { destruct H as [H | H]; [exact H|].
    apply in_map_iff in H. destruct H as [row [<- Hrow]].
    apply ranked_tags_items in Hrow.
    apply in_map_iff. now exists (Tag.name row, Tag.stationcount row). }
  pose proof (collect_tag_count_clean stations) as Hclean.
  rewrite Forall_forall in Hclean. exact (Hclean tag Hkey).
Qed.

(** What assigning [get(k, 0) + 1] does to the sum of the counts. *)
Lemma dict_increment_sum (d : Dict.dict nat) (k : str) :
  list_sum (map snd (Dict.set k (Dict.get_default d k 0 + 1) d))
  = S (list_sum (map snd d)).
Proof.
  unfold Dict.get_default.
  induction d as [|[k0 v0] d IH]; simpl; [reflexivity|].
  destruct (Str.eqb k0 k); simpl; [lia|].
  rewrite IH. lia.
Qed.

Lemma fold_count_tag_sum (pieces : list str) (tag_count : Dict.dict nat) :
  list_sum (map snd (fold_left count_tag pieces tag_count))
  = list_sum (map snd tag_count)
    + length (filter Str.truthy (map Str.strip pieces)).
Proof.
  revert tag_count; induction pieces as [|piece pieces IH];
    intros tag_count; simpl; [lia|].
  rewrite IH. unfold count_tag.
  destruct (Str.truthy (Str.strip piece)); simpl; [|lia].
  rewrite dict_increment_sum. lia.
Qed.

Lemma tag_pairs_cons_length (station : Station) (stations : list Station) :
  length (tag_pairs (station :: stations))
  = length (station_tags station) + length (tag_pairs stations).
Proof.
  unfold tag_pairs. simpl. now rewrite length_app, length_map.
Qed.

(** X10.  The counts of [tag_count] add up to the number of tag
    occurrences of the station list: no occurrence is lost and none is
    counted twice. *)
Theorem tag_count_total (stations : list Station) :
  list_sum (map snd (collect_tag_count stations))
  = length (tag_pairs stations).
Proof.
  unfold collect_tag_count.
  change (length (tag_pairs stations))
    with (list_sum (map snd (@nil (str * nat))) + length (tag_pairs stations)).
  generalize (@nil (str * nat)) as tag_count.
  induction stations as [|s stations IH]; intros tag_count.
  - simpl. unfold tag_pairs. simpl. lia.
  - cbn [fold_left]. rewrite IH, tag_pairs_cons_length.
    unfold count_station at 1.
    destruct (opt_truthy (tags s)) eqn:E.
    + rewrite fold_count_tag_sum. unfold station_tags. lia.
    + rewrite (station_tags_falsy s E). simpl. lia.
Qed.

(** The keys of a dict after an assignment, by whether the key is new. *)
Lemma dict_set_keys_existsb {V} (d : Dict.dict V) (k : str) (v : V) :
  map fst (Dict.set k v d)
  = if existsb (Str.eqb k) (map fst d) then map fst d else map fst d ++ [k].
Proof.
  rewrite dict_set_keys.
  destruct (existsb (Str.eqb k) (map fst d)) eqn:E.
  - apply existsb_exists in E. destruct E as [k' [Hin Hk]].
    apply str_eqb_eq in Hk; subst k'.
    destruct (Dict.get d k) eqn:Hget; [reflexivity|].
    apply dict_get_None in Hget. contradiction.
  - destruct (Dict.get d k) eqn:Hget; [|reflexivity].
    apply dict_get_In in Hget.
    assert (H : existsb (Str.eqb k) (map fst d) = true).
    { apply existsb_exists. exists k. split; [|apply str_eqb_refl].
      apply in_map_iff. now exists (k, v0). }
    rewrite H in E. discriminate.
Qed.

Lemma fold_count_tag_keys (pieces : list str) (tag_count : Dict.dict nat) :
  map fst (fold_left count_tag pieces tag_count)
  = fold_left see (filter Str.truthy (map Str.strip pieces))
      (map fst tag_count).
Proof.
  revert tag_count; induction pieces as [|piece pieces IH];
    intros tag_count; simpl; [reflexivity|].
  rewrite IH. unfold count_tag.
  destruct (Str.truthy (Str.strip piece)); simpl; [|reflexivity].
  now rewrite dict_set_keys_existsb.
Qed.

Lemma fold_count_station_keys (stations : list Station)
    (tag_count : Dict.dict nat) :
  map fst (fold_left count_station stations tag_count)
  = fold_left see (map snd (tag_pairs stations)) (map fst tag_count).
Proof.
  revert tag_count; induction stations as [|s stations IH];
    intros tag_count; [reflexivity|].
  cbn [fold_left]. rewrite IH.
  unfold tag_pairs. cbn [flat_map].
  rewrite map_app, fold_left_app, map_map. cbn [snd]. rewrite map_id.
  f_equal. unfold count_station.
  destruct (opt_truthy (tags s)) eqn:E.
  - rewrite fold_count_tag_keys. reflexivity.
  - rewrite (station_tags_falsy s E). reflexivity.
Qed.

(** X11.  The keys of [tag_count] stand in the order in which the tags
    are first met when the stations are read in order and the tags of a
    station from left to right. *)
Theorem tag_count_key_order (stations : list Station) :
  map fst (collect_tag_count stations)
  = first_occurrences (map snd (tag_pairs stations)).
Proof.
  unfold collect_tag_count, first_occurrences.
  exact (fold_count_station_keys stations []).
Qed.

(* ===================================================================== *)
(** ** Which tags the ranking keeps *)
(* ===================================================================== *)

Lemma ranked_tags_by_count (tag_count : Dict.dict nat) :
  ranked_tags tag_count
  = list_sort Tag.name Str.ltb false (firstn 100 (tags_by_count tag_count)).
Proof. reflexivity. Qed.

Lemma nat_ltb_asym (a b : nat) : Nat.ltb a b = true -> Nat.ltb b a = false.
Proof. rewrite Nat.ltb_lt, Nat.ltb_ge. lia. Qed.

Lemma nat_ltb_negtrans (a b c : nat) :
  Nat.ltb b a = false -> Nat.ltb c b = false -> Nat.ltb c a = false.
Proof. rewrite !Nat.ltb_ge. lia. Qed.

(** After the first sort the counts never increase along the list. *)
Lemma tags_by_count_sorted (tag_count : Dict.dict nat) :
  StronglySorted (fun a b => Tag.stationcount b <= Tag.stationcount a)
                 (tags_by_count tag_count).
Proof.
  unfold tags_by_count.
  set (rows := map _ (Dict.items tag_count)).
  generalize (list_sort_sorted _ _ Tag.stationcount Nat.ltb nat_ltb_asym
                nat_ltb_negtrans true rows).
  apply StronglySorted_ind; [constructor|].
  intros x l Hl IH Hx. constructor; [exact IH|].
  rewrite Forall_forall in *. intros y Hy.
  specialize (Hx y Hy). unfold in_order in Hx.
  now apply Nat.ltb_ge in Hx.
Qed.

Lemma tags_by_count_In (tag_count : Dict.dict nat) (row : Tag.row) :
  In row (tags_by_count tag_count)
  <-> In (Tag.name row, Tag.stationcount row) tag_count.
Proof.
  unfold tags_by_count, Dict.items. rewrite list_sort_In, in_map_iff. split.
  - intros [[k v] [<- H]]. exact H.
  - intros H. exists (Tag.name row, Tag.stationcount row).
    split; [now destruct row | exact H].
Qed.

Lemma tags_by_count_NoDup (tag_count : Dict.dict nat) :
  NoDup (map fst tag_count) -> NoDup (map Tag.name (tags_by_count tag_count)).
Proof.
  intros Hnd. unfold tags_by_count, Dict.items.
  eapply Permutation_NoDup.
  - apply Permutation_map, Permutation_sym, list_sort_perm.
  - rewrite map_map. erewrite map_ext; [exact Hnd|].
    intros [k v]; reflexivity.
Qed.

Lemma ranked_tags_In (tag_count : Dict.dict nat) (row : Tag.row) :
  In row (ranked_tags tag_count)
  <-> In row (firstn 100 (tags_by_count tag_count)).
Proof. rewrite ranked_tags_by_count. apply list_sort_In. Qed.

Lemma StronglySorted_app_order {A} (R : A -> A -> Prop) (l1 l2 : list A)
    (x y : A) :
  StronglySorted R (l1 ++ l2) -> In x l1 -> In y l2 -> R x y.
Proof.
  induction l1 as [|a l1 IH]; simpl; [intros _ []|].
  intros Hs [-> | Hx] Hy; inversion Hs as [|? ? Hs' Ha]; subst.
  - rewrite Forall_forall in Ha. apply Ha. apply in_or_app; now right.
  - now apply IH.
Qed.

(** The count a row of the tag count carries is the number of occurrences
    of its name. *)
Lemma tag_count_entry (stations : list Station) (k : str) (v : nat) :
  In (k, v) (collect_tag_count stations) -> v = tag_occurrences k stations.
Proof.
  intros Hin.
  destruct (collect_tag_count_ok stations) as [Hnd _].
  pose proof (fold_count_station_get stations [] k) as Hget.
  fold (collect_tag_count stations) in Hget.
  unfold Dict.get_default in Hget.
  rewrite (dict_In_get _ _ _ Hnd Hin) in Hget. simpl in Hget. exact Hget.
Qed.

Lemma tag_count_key_iff (stations : list Station) (T : str) :
  0 < tag_occurrences T stations
  <-> exists v, In (T, v) (collect_tag_count stations).
Proof.
  destruct (collect_tag_count_ok stations) as [Hnd Hpos].
  pose proof (fold_count_station_get stations [] T) as Hget.
  fold (collect_tag_count stations) in Hget.
  unfold Dict.get_default in Hget. simpl in Hget. split.
  - intros Hocc.
    destruct (Dict.get (collect_tag_count stations) T) as [v|] eqn:E;
      [|lia].
    exists v. now apply dict_get_In.
  - intros [v Hin].
    rewrite (dict_In_get _ _ _ Hnd Hin) in Hget.
    specialize (Hpos T v (dict_In_get _ _ _ Hnd Hin)). lia.
Qed.

(** X12.  The index keeps the most frequent tags: a tag that is in the
    index occurs at least as often as any tag that is not. *)
Theorem index_keeps_most_frequent (stations : list Station) (T T' : str) :
  let names := map Tag.name (ranked_tags (collect_tag_count stations)) in
  In T' names -> ~ In T names ->
  tag_occurrences T stations <= tag_occurrences T' stations.
Proof.
  intros names HT' HT. subst names.
  set (tag_count := collect_tag_count stations) in *.
  apply in_map_iff in HT'. destruct HT' as [row' [Hname' Hrow']].
  pose proof (ranked_tags_items _ _ Hrow') as Hentry'.
  rewrite Hname' in Hentry'. apply tag_count_entry in Hentry'.
  rewrite <- Hentry'.
  destruct (Nat.eq_dec (tag_occurrences T stations) 0) as [-> | Hocc];
    [lia|].
  destruct (proj1 (tag_count_key_iff stations T)) as [v Hin]; [lia|].
  rewrite <- (tag_count_entry stations T v Hin).
  set (row := {| Tag.name := T; Tag.stationcount := v |}).
  assert (Hrow : In row (tags_by_count tag_count)).
  { apply tags_by_count_In. exact Hin. }
  rewrite <- (firstn_skipn 100 (tags_by_count tag_count)) in Hrow.
  apply in_app_or in Hrow. destruct Hrow as [Hrow | Hrow].
  - exfalso. apply HT. apply in_map_iff. exists row.
    split; [reflexivity|]. now apply ranked_tags_In.
  - apply ranked_tags_In in Hrow'.
    pose proof (tags_by_count_sorted tag_count) as Hsorted.
    rewrite <- (firstn_skipn 100 (tags_by_count tag_count)) in Hsorted.
    exact (StronglySorted_app_order _ _ _ row' row Hsorted Hrow' Hrow).
Qed.

(** X13.  A tag of the index occurs in the station list; and when the
    list has at most 100 distinct tags, every tag that occurs is in the
    index. *)
Theorem index_complete_when_small (stations : list Station) (T : str) :
  let tag_count := collect_tag_count stations in
  let names := map Tag.name (ranked_tags tag_count) in
  (In T names -> 0 < tag_occurrences T stations)
  /\ (length tag_count <= 100 ->
      0 < tag_occurrences T stations -> In T names).
Proof.
  intros tag_count names. subst names. split.
  - intros H. apply in_map_iff in H. destruct H as [row [<- Hrow]].
    apply tag_count_key_iff. exists (Tag.stationcount row).
    now apply ranked_tags_items.
  - intros Hsmall Hocc.
    apply tag_count_key_iff in Hocc. destruct Hocc as [v Hin].
    apply in_map_iff. exists {| Tag.name := T; Tag.stationcount := v |}.
    split; [reflexivity|].
    apply ranked_tags_In. rewrite firstn_all2.
    + apply tags_by_count_In. exact Hin.
    + unfold tags_by_count, Dict.items.
      rewrite list_sort_length, length_map. exact Hsmall.
Qed.

Lemma filter_before {A} (p : A -> bool) (l : list A) (front back : list A)
    (a b : A) :
  filter p l = front ++ a :: back -> In b back ->
  exists l1 l2, l = l1 ++ a :: l2 /\ In b l2.
Proof.
  revert front; induction l as [|x l IH]; intros front Hf Hb; simpl in Hf.
  - destruct front; discriminate.
  - destruct (p x) eqn:Hx.
    + destruct front as [|f front]; simpl in Hf;
        injection Hf as Hhead Hrest; subst x.
      * exists [], l. split; [reflexivity|].
        assert (H : In b (filter p l)) by (rewrite Hrest; exact Hb).
        apply filter_In in H. apply H.
      * destruct (IH front Hrest Hb) as [l1 [l2 [-> Hl2]]].
        exists (f :: l1), l2. split; [reflexivity | exact Hl2].
    + destruct (IH front Hf Hb) as [l1 [l2 [-> Hl2]]].
      exists (x :: l1), l2. split; [reflexivity | exact Hl2].
Qed.

Lemma firstn_keeps_earlier {A} (n : nat) (l1 l2 : list A) (a b : A) :
  NoDup (l1 ++ a :: l2) -> In b l2 ->
  In b (firstn n (l1 ++ a :: l2)) ->
  In a (firstn n (l1 ++ a :: l2)).
Proof.
  intros Hnd Hb Hfirst. rewrite firstn_app in *.
  apply in_or_app. apply in_app_or in Hfirst.
  destruct Hfirst as [Hfirst | Hfirst].
  - exfalso. apply firstn_In in Hfirst.
    revert Hnd Hfirst Hb. clear.
    induction l1 as [|x l1 IH]; simpl; [intros _ []|].
    intros Hnd [-> | Hx] Hb.
    + apply NoDup_cons_iff in Hnd. apply (proj1 Hnd).
      apply in_or_app. right. now right.
    + apply NoDup_cons_iff in Hnd. exact (IH (proj2 Hnd) Hx Hb).
  - right. destruct (n - length l1) as [|m]; [destruct Hfirst|].
    now left.
Qed.

(** X14.  Ties are decided by the order in which the tags are met: of
    two tags that occur equally often, if the one met later is in the
    index then so is the one met earlier. *)
Theorem tie_keeps_earlier_tag (stations : list Station) (T1 T2 : str)
    (front middle back : list str) :
  first_occurrences (map snd (tag_pairs stations))
  = front ++ T1 :: middle ++ T2 :: back ->
  tag_occurrences T1 stations = tag_occurrences T2 stations ->
  let names := map Tag.name (ranked_tags (collect_tag_count stations)) in
  In T2 names -> In T1 names.
Proof.
  intros Horder Hsame names HT2. subst names.
  set (tag_count := collect_tag_count stations) in *.
  destruct (collect_tag_count_ok stations) as [Hnd _].
  fold tag_count in Hnd.
  (* the two entries of the dict *)
  assert (Hkeys : map fst tag_count = front ++ T1 :: middle ++ T2 :: back).
  { rewrite <- Horder. exact (fold_count_station_keys stations []). }
  apply map_eq_app in Hkeys.
  destruct Hkeys as [d1 [d2 [Hd [_ Hd2]]]].
  apply map_eq_cons in Hd2. destruct Hd2 as [[k1 c1] [d3 [-> [Hk1 Hd3]]]].
  apply map_eq_app in Hd3. destruct Hd3 as [d4 [d5 [-> [_ Hd5]]]].
  apply map_eq_cons in Hd5. destruct Hd5 as [[k2 c2] [d6 [-> [Hk2 _]]]].
  simpl in Hk1, Hk2. subst k1 k2.
  assert (H1 : In (T1, c1) tag_count).
  { rewrite Hd. apply in_or_app; right; now left. }
  assert (H2 : In (T2, c2) tag_count).
  { rewrite Hd. apply in_or_app; right; right.
    apply in_or_app; right; now left. }
  assert (Hc : c2 = c1).
  { rewrite (tag_count_entry stations T1 c1 H1),
      (tag_count_entry stations T2 c2 H2). now symmetry. }
  subst c2.
  set (row1 := {| Tag.name := T1; Tag.stationcount := c1 |}).
  set (row2 := {| Tag.name := T2; Tag.stationcount := c1 |}).
  (* the sort by count leaves them in that order *)
  set (p := fun row => Nat.eqb (Tag.stationcount row) c1).
  assert (Hp : forall a b, p a = true -> p b = true ->
                 Nat.ltb (Tag.stationcount a) (Tag.stationcount b) = false).
  { intros a b Ha Hb. unfold p in Ha, Hb.
    apply Nat.eqb_eq in Ha, Hb. apply Nat.ltb_ge. lia. }
  set (mk := fun '(tag, count) =>
               {| Tag.name := tag; Tag.stationcount := count |}).
  assert (Hrows : map mk tag_count
                  = map mk d1 ++ row1 :: map mk d4 ++ row2 :: map mk d6).
  { rewrite Hd, map_app. cbn [map]. rewrite map_app. reflexivity. }
  pose proof (list_sort_stable _ _ Tag.stationcount Nat.ltb p true
                (map mk tag_count) Hp) as Hstable.
  change (list_sort Tag.stationcount Nat.ltb true (map mk tag_count))
    with (tags_by_count tag_count) in Hstable.
  rewrite Hrows, filter_app in Hstable. cbn [filter] in Hstable.
  replace (p row1) with true in Hstable
    by (unfold p; simpl; now rewrite Nat.eqb_refl).
  destruct (filter_before p _ _ _ row1 row2 Hstable) as [l1 [l2 [Hsplit Hl2]]].
  { apply filter_In. split.
    - apply in_or_app; right. now left.
    - unfold p. simpl. apply Nat.eqb_refl. }
  (* the row of T2 that is in the index is row2 *)
  apply in_map_iff in HT2. destruct HT2 as [row [Hname Hrow]].
  assert (Hrow2 : row = row2).
  { pose proof (ranked_tags_items _ _ Hrow) as Hentry.
    rewrite Hname in Hentry.
    pose proof (dict_In_get _ _ _ Hnd Hentry) as Hg.
    rewrite (dict_In_get _ _ _ Hnd H2) in Hg.
    destruct row as [n c]. simpl in *. subst n.
    injection Hg as <-. reflexivity. }
  subst row. apply ranked_tags_In in Hrow.
  apply in_map_iff. exists row1. split; [reflexivity|].
  apply ranked_tags_In.
  pose proof (tags_by_count_NoDup tag_count Hnd) as Hnames.
  apply NoDup_map_inv in Hnames.
  rewrite Hsplit in Hrow, Hnames |- *.
  now apply firstn_keeps_earlier with row2.
Qed.

Lemma build_by_tag_named (self : RadioMediaSource)
    (radios : Radios.RadioBrowser) (tag : str) :
  tag <> [] ->
  _async_build_by_tag self radios
    {| Item.identifier := Some (lit "tag/" ++ tag) |}
  = _async_build_stations self radios
      (filter is_russian (Radios.stations radios (by_tag_query tag))).
Proof.
  intros Htag. unfold _async_build_by_tag.
  cbv [Item.identifier or_empty]. rewrite str_partition_tag.
  destruct tag as [|c tag]; [congruence | reflexivity].
Qed.

(** X15.  The index leads back into the tree: browsing with the
    identifier of any node of the tag index returns the stations of the
    tag the node is named after, never the index again and never an empty
    answer for want of a match. *)
Theorem tag_index_nodes_reenter (self : RadioMediaSource)
    (radios : Radios.RadioBrowser) (node : BrowseMediaSource) :
  In node (_async_build_by_tag self radios
             {| Item.identifier := Some (lit "tag") |}) ->
  exists tag,
    identifier node = Some (lit "tag/" ++ tag)
    /\ 0 < tag_occurrences tag (Radios.stations radios tag_index_query)
    /\ _async_build_by_tag self radios
         {| Item.identifier := identifier node |}
       = _async_build_stations self radios
           (filter is_russian (Radios.stations radios (by_tag_query tag))).
Proof.
  change (_async_build_by_tag self radios
            {| Item.identifier := Some (lit "tag") |})
    with (map tag_node
            (ranked_tags
               (collect_tag_count (Radios.stations radios tag_index_query)))).
  intros Hnode. apply in_map_iff in Hnode.
  destruct Hnode as [row [<- Hrow]].
  exists (Tag.name row). split; [reflexivity|].
  pose proof (ranked_tags_items _ _ Hrow) as Hentry.
  split.
  - apply tag_count_key_iff. now exists (Tag.stationcount row).
  - cbn [identifier tag_node]. apply build_by_tag_named.
    pose proof (collect_tag_count_clean
                  (Radios.stations radios tag_index_query)) as Hclean.
    rewrite Forall_forall in Hclean.
    apply (Hclean (Tag.name row)).
    apply in_map_iff. now exists (Tag.name row, Tag.stationcount row).
Qed.

(* ===================================================================== *)
(** ** The kinds of nodes *)
(* ===================================================================== *)

Lemma build_stations_no_container (self : RadioMediaSource)
    (radios : Radios.RadioBrowser) (stations : list Station) :
  filter can_expand (_async_build_stations self radios stations) = [].
Proof.
  rewrite build_stations_filter_map.
  induction (filter is_retained stations) as [|s l IH]; simpl; auto.
Qed.

Lemma build_by_tag_kinds (self : RadioMediaSource)
    (radios : Radios.RadioBrowser) (item : Item.MediaSourceItem)
    (node : BrowseMediaSource) :
  In node (_async_build_by_tag self radios item) ->
  can_play node = negb (can_expand node).
Proof.
  unfold _async_build_by_tag.
  destruct (Str.partition (N_of_ascii "/") (or_empty (Item.identifier item)))
    as [[category sep] tag].
  destruct (Str.eqb category (lit "tag") && Str.truthy tag).
  - intros H.
    pose proof (build_stations_playable self radios
                  (filter is_russian
                     (Radios.stations radios (by_tag_query tag)))) as Hall.
    rewrite Forall_forall in Hall.
    destruct (Hall node H) as [-> ->]. reflexivity.
  - destruct (Str.eqb category (lit "tag")).
    + intros H. apply in_map_iff in H. destruct H as [row [<- _]].
      reflexivity.
    + destruct (is_root item); [|intros []].
      intros [<- | []]. reflexivity.
Qed.

(** X16.  Every node of the tree is of exactly one kind, playable leaf or
    expandable container: this holds for the node [async_browse_media]
    returns and for each of its children, whatever the identifier. *)
Theorem browse_nodes_one_kind (self : RadioMediaSource)
    (item : Item.MediaSourceItem) :
  let node := async_browse_media self item in
  can_play node = negb (can_expand node)
  /\ exists nodes,
       children node = Some nodes
       /\ Forall (fun child => can_play child = negb (can_expand child))
                 nodes.
Proof.
  intros node. split; [reflexivity|].
  eexists. split; [reflexivity|].
  assert (Hleaf : forall stations,
             Forall (fun child => can_play child = negb (can_expand child))
                    (_async_build_stations self (radios self) stations)).
  { intros stations.
    pose proof (build_stations_playable self (radios self) stations) as H.
    rewrite Forall_forall in *. intros child Hc.
    destruct (H child Hc) as [-> ->]. reflexivity. }
  repeat (apply Forall_app; split).
  - unfold _async_build_popular. destruct (is_root item);
      [apply Hleaf | constructor].
  - apply Forall_forall. intros child.
    apply build_by_tag_kinds.
  - unfold _async_build_by_language. destruct (is_root item);
      [apply Hleaf | constructor].
  - unfold _async_build_local. destruct (is_root item);
      [apply Hleaf | constructor].
  - unfold _async_build_by_country. destruct (is_root item);
      [apply Hleaf | constructor].
Qed.

(** X17.  At the root exactly one child can be expanded, the "By
    Category" entry with identifier ["tag"]; every other child is a
    station. *)
Theorem root_has_one_container (self : RadioMediaSource)
    (item : Item.MediaSourceItem) :
  is_root item = true ->
  exists nodes,
    children (async_browse_media self item) = Some nodes
    /\ filter can_expand nodes = [by_category_node]
    /\ identifier by_category_node = Some (lit "tag").
Proof.
  intros Hroot. eexists. split; [reflexivity|]. split; [|reflexivity].
  rewrite (build_by_tag_root self (radios self) item Hroot).
  unfold _async_build_popular, _async_build_by_language,
    _async_build_local, _async_build_by_country.
  rewrite Hroot. cbv zeta.
  rewrite !filter_app, !build_stations_no_container. reflexivity.
Qed.

End MediaSource.

(* ===================================================================== *)
(** ** The definitions at work on the sample data *)
(* ===================================================================== *)

(** The codec ["AAC+"] decides the type although the URL ends in [.mp3]. *)
Lemma mime_type_from_table_first_witness :
  In (codec Demo.aac, lit "audio/aac") CODEC_TO_MIMETYPE
  /\ Demo.guess_type (url Demo.aac) = Some (lit "audio/mpeg")
  /\ _async_get_station_mime_type Demo.guess_type Demo.aac
     = Some (lit "audio/aac").
Proof.
  assert (H : In (codec Demo.aac, lit "audio/aac") CODEC_TO_MIMETYPE).
  { vm_compute. right; right; left; reflexivity. }
  split; [exact H|]. split; [reflexivity|].
  exact (proj1 (mime_type_from_table_first Demo.guess_type Demo.aac) _ H).
Defined.

(** A FLAC station behind a URL without extension cannot be resolved. *)
Lemma resolve_media_outcomes_witness :
  Radios.station (radios Demo.source) (Item.identifier (Demo.item "s-flac"))
  = Some Demo.flac
  /\ snd (async_resolve_media Demo.guess_type Demo.source (Demo.item "s-flac"))
     = inl (Raise UnknownStreamType).
Proof.
  split; [reflexivity|].
  apply (proj1 (proj2 (resolve_media_outcomes Demo.guess_type Demo.source
                         (Demo.item "s-flac"))) Demo.flac);
    reflexivity.
Defined.

Example resolve_media_missing :
  async_resolve_media Demo.guess_type Demo.source (Demo.item "gone")
  = ([], inl (Raise StationUnavailable)).
Proof. reflexivity. Qed.

Example resolve_media_mp3 :
  async_resolve_media Demo.guess_type Demo.source (Demo.item "s-mp3")
  = ([lit "s-mp3"],
     inr {| Play.url := lit "http://x/stream?resolved";
            Play.mime_type := lit "audio/mpeg" |}).
Proof. reflexivity. Qed.

(** C5 as stated fails: the sample with codec ["UNKNOWN"] is in the
    directory, its URL ends in [.mp3], the click call returns, and it
    resolves to [audio/mpeg]. *)
Lemma resolve_media_unknown_codec_counterexample :
  async_resolve_media Demo.guess_type Demo.source (Demo.item "s-unk")
  = ([lit "s-unk"],
     inr {| Play.url := lit "http://x/a.mp3?resolved";
            Play.mime_type := lit "audio/mpeg" |})
  /\ ~ (forall guess_type self item station,
          Radios.station (radios self) (Item.identifier item) = Some station ->
          codec station = lit "UNKNOWN" ->
          snd (async_resolve_media guess_type self item)
          = inl (Raise UnknownStreamType)).
Proof.
  split; [reflexivity|].
  intros H.
  specialize (H Demo.guess_type Demo.source (Demo.item "s-unk") Demo.unknown
                eq_refl eq_refl).
  vm_compute in H. discriminate H.
Qed.

(** With a directory whose click call fails, the same station and the
    MP3 sample end in the exception of the click. *)
Example resolve_media_click_fails :
  async_resolve_media Demo.guess_type Offline.source (Demo.item "s-unk")
  = ([lit "s-unk"],
     inl (Propagate (Radios.RadioBrowserError_ (lit "timeout"))))
  /\ async_resolve_media Demo.guess_type Offline.source (Demo.item "s-mp3")
     = ([lit "s-mp3"],
        inl (Propagate (Radios.RadioBrowserError_ (lit "timeout")))).
Proof. split; reflexivity. Qed.

Lemma resolve_media_unknown_codec_witness :
  Radios.station (radios Demo.source) (Item.identifier (Demo.item "s-unk"))
  = Some Demo.unknown
  /\ codec Demo.unknown = lit "UNKNOWN"
  /\ async_resolve_media Demo.guess_type Demo.source (Demo.item "s-unk")
     = ([uuid Demo.unknown],
        inr {| Play.url := url_resolved Demo.unknown;
               Play.mime_type := lit "audio/mpeg" |}).
Proof.
  split; [reflexivity|]. split; [reflexivity|].
  apply (proj2 (resolve_media_unknown_codec Demo.guess_type Demo.source
                  (Demo.item "s-unk") Demo.unknown eq_refl eq_refl)).
  - reflexivity.
  - discriminate.
Defined.

(** The sample with codec ["UNKNOWN"] is dropped although its URL would
    give a mime type. *)
Lemma unknown_codec_builds_no_node_witness :
  codec Demo.unknown = lit "UNKNOWN"
  /\ Demo.guess_type (url Demo.unknown) = Some (lit "audio/mpeg")
  /\ _async_build_stations Demo.DOMAIN Demo.guess_type Demo.source Demo.client
       ([Demo.mp3] ++ Demo.unknown :: [Demo.flac; Demo.aac])
     = _async_build_stations Demo.DOMAIN Demo.guess_type Demo.source
         Demo.client ([Demo.mp3] ++ [Demo.flac; Demo.aac]).
Proof.
  split; [reflexivity|]. split; [reflexivity|].
  apply (unknown_codec_builds_no_node Demo.DOMAIN Demo.guess_type Demo.source
           Demo.client [Demo.mp3] [Demo.flac; Demo.aac] Demo.unknown).
  reflexivity.
Defined.

Example build_stations_sample :
  map identifier
    (_async_build_stations Demo.DOMAIN Demo.guess_type Demo.source Demo.client
       Demo.all)
  = [Some (lit "s-mp3"); Some (lit "s-aac")]
  /\ filter (is_retained Demo.guess_type) Demo.all = [Demo.mp3; Demo.aac].
Proof. split; reflexivity. Qed.

(** Of the placed samples only the one at the origin is local. *)
Example filter_local_stations_sample :
  _filter_local_stations Demo.vincenty Demo.source Demo.placed 55.75 37.5
  = [Demo.at_ 55.75 37.5 "RU" Demo.mp3].
Proof. vm_compute. reflexivity. Qed.

(** The directory answers the query for "Jazz" with four stations: one
    from Belarus whose language contains "RUSSIAN", one German, one from
    Russia without language, one from Kazakhstan in Russian whose codec is
    "UNKNOWN".  The first and the third become nodes. *)
Lemma build_by_tag_stations_witness :
  lit "Jazz" <> []
  /\ filter (is_russian Demo.str_lower)
        (Radios.stations Abroad.client (by_tag_query (lit "Jazz")))
     = [Abroad.minsk; Abroad.tver; Abroad.almaty]
  /\ map identifier
       (_async_build_by_tag Demo.DOMAIN Demo.guess_type Demo.str_lower
          Demo.str_title Abroad.source Abroad.client (Demo.item "tag/Jazz"))
     = [Some (lit "s-by"); Some (lit "s-ru")]
  /\ Forall2
       (fun station node =>
          identifier node = Some (uuid station)
          /\ title node = name station
          /\ thumbnail node = favicon station
          /\ Some (media_content_type node)
             = _async_get_station_mime_type Demo.guess_type station
          /\ can_play node = true
          /\ can_expand node = false)
       [Abroad.minsk; Abroad.tver]
       (_async_build_by_tag Demo.DOMAIN Demo.guess_type Demo.str_lower
          Demo.str_title Abroad.source Abroad.client (Demo.item "tag/Jazz")).
Proof.
  assert (H : lit "Jazz" <> []) by discriminate.
  split; [exact H|]. split; [reflexivity|]. split; [reflexivity|].
  exact (proj2 (proj2 (build_by_tag_stations Demo.DOMAIN Demo.guess_type
                         Demo.str_lower Demo.str_title Abroad.source
                         Abroad.client (lit "Jazz") H))).
Defined.

(** The four samples carry the tags "Jazz, Rock", "jazz", "Rock, Pop" and
    " Jazz ,,Jazz". *)
Example collect_tag_count_sample :
  collect_tag_count Demo.all
  = [(lit "Jazz", 3); (lit "Rock", 2); (lit "jazz", 1); (lit "Pop", 1)].
Proof. reflexivity. Qed.

Lemma tag_count_is_occurrences_witness :
  In {| Tag.name := lit "Jazz"; Tag.stationcount := 3 |}
     (ranked_tags (collect_tag_count Demo.all))
  /\ tag_occurrences (lit "Jazz") Demo.all = 3.
Proof.
  assert (H : In {| Tag.name := lit "Jazz"; Tag.stationcount := 3 |}
                 (ranked_tags (collect_tag_count Demo.all))).
  { vm_compute. left; reflexivity. }
  split; [exact H|].
  symmetry.
  exact (proj2 (proj2 (tag_count_is_occurrences Demo.all (lit "Jazz")))
           _ H eq_refl).
Defined.

Example tag_index_sample :
  map identifier
    (_async_build_by_tag Demo.DOMAIN Demo.guess_type Demo.str_lower
       Demo.str_title Demo.source Demo.client (Demo.item "tag"))
  = [Some (lit "tag/Jazz"); Some (lit "tag/Pop"); Some (lit "tag/Rock");
     Some (lit "tag/jazz")].
Proof. reflexivity. Qed.

Lemma browse_media_children_witness :
  is_root {| Item.identifier := None |} = true
  /\ option_map (map identifier)
       (children
          (async_browse_media Demo.DOMAIN Demo.guess_type Demo.vincenty
             Demo.str_lower Demo.str_title Demo.source
             {| Item.identifier := None |}))
     = Some [Some (lit "s-mp3"); Some (lit "s-aac"); Some (lit "tag");
             Some (lit "s-mp3"); Some (lit "s-aac");
             Some (lit "s-mp3"); Some (lit "s-aac")].
Proof.
  split; [reflexivity|].
  rewrite (proj2 (proj2 (proj2
             (browse_media_children Demo.DOMAIN Demo.guess_type Demo.vincenty
                Demo.str_lower Demo.str_title Demo.source
                {| Item.identifier := None |}))) eq_refl).
  reflexivity.
Defined.

(* ===================================================================== *)
(** ** The further properties on the sample data *)
(* ===================================================================== *)

Lemma browse_media_below_root_witness :
  is_root (Demo.item "tag") = false
  /\ children
       (async_browse_media Demo.DOMAIN Demo.guess_type Demo.vincenty
          Demo.str_lower Demo.str_title Demo.source (Demo.item "tag"))
     = Some (_async_build_by_tag Demo.DOMAIN Demo.guess_type Demo.str_lower
               Demo.str_title Demo.source (radios Demo.source)
               (Demo.item "tag")).
Proof.
  split; [reflexivity|].
  exact (proj2 (proj2 (proj2 (proj2
           (browse_media_below_root Demo.DOMAIN Demo.guess_type Demo.vincenty
              Demo.str_lower Demo.str_title Demo.source (Demo.item "tag")
              eq_refl))))).
Defined.

(** A station uuid used as identifier opens nothing. *)
Lemma browse_media_unknown_identifier_witness :
  children
    (async_browse_media Demo.DOMAIN Demo.guess_type Demo.vincenty
       Demo.str_lower Demo.str_title Demo.source (Demo.item "s-mp3"))
  = Some [].
Proof.
  apply (proj2 (browse_media_unknown_identifier Demo.DOMAIN Demo.guess_type
                  Demo.vincenty Demo.str_lower Demo.str_title Demo.source
                  (Demo.item "s-mp3") (lit "s-mp3") eq_refl
                  ltac:(discriminate) ltac:(discriminate) eq_refl)).
Defined.

(** The click call of the directory fails: the MP3 sample is found, its
    type is known, and the resolve ends in the exception of the click. *)
Lemma resolve_media_click_witness :
  Radios.station (radios Offline.source) (Item.identifier (Demo.item "s-mp3"))
  = Some Demo.mp3
  /\ fst (async_resolve_media Demo.guess_type Offline.source
            (Demo.item "s-mp3"))
     = [lit "s-mp3"]
  /\ snd (async_resolve_media Demo.guess_type Offline.source
            (Demo.item "s-mp3"))
     = inl (Propagate (Radios.RadioBrowserError_ (lit "timeout"))).
Proof.
  split; [reflexivity|].
  exact (proj2 (proj2 (resolve_media_click Demo.guess_type Offline.source
                         (Demo.item "s-mp3")))
           Demo.mp3 (Radios.RadioBrowserError_ (lit "timeout"))
           eq_refl eq_refl eq_refl).
Defined.

Lemma local_nodes_are_country_nodes_witness :
  map identifier
    (_async_build_local Demo.DOMAIN Demo.guess_type Demo.vincenty
       Nearby.source Nearby.client {| Item.identifier := None |})
  = [Some (lit "s-mp3")]
  /\ In (station_node Demo.DOMAIN (Demo.at_ 55.75 37.5 "RU" Demo.mp3)
           (lit "audio/mpeg"))
        (_async_build_by_country Demo.DOMAIN Demo.guess_type Nearby.source
           Nearby.client {| Item.identifier := None |}).
Proof.
  split; [vm_compute; reflexivity|].
  apply (local_nodes_are_country_nodes Demo.DOMAIN Demo.guess_type
           Demo.vincenty Nearby.source Nearby.client
           {| Item.identifier := None |}).
  vm_compute. left. reflexivity.
Defined.

Lemma built_node_resolves_witness :
  exists station,
    In station Demo.all
    /\ Some (lit "s-aac") = Some (uuid station)
    /\ (Radios.station (radios Demo.source) (Some (lit "s-aac"))
        = Some station ->
        async_resolve_media Demo.guess_type Demo.source (Demo.item "s-aac")
        = ([uuid station],
           inr {| Play.url := url_resolved station;
                  Play.mime_type := lit "audio/aac" |})).
Proof.
  apply (built_node_resolves Demo.DOMAIN Demo.guess_type Demo.source
           Demo.client Demo.all
           (station_node Demo.DOMAIN Demo.aac (lit "audio/aac"))).
  vm_compute. right; left. reflexivity.
Defined.

Lemma build_popular_at_most_250_witness :
  length (Radios.stations Demo.client popular_query) <= 250
  /\ length (_async_build_popular Demo.DOMAIN Demo.guess_type Demo.source
               Demo.client {| Item.identifier := None |}) <= 250.
Proof.
  assert (H : length (Radios.stations Demo.client popular_query) <= 250).
  { vm_compute. lia. }
  split; [exact H|].
  exact (proj2 (build_popular_at_most_250 Demo.DOMAIN Demo.guess_type
                  Demo.source Demo.client {| Item.identifier := None |}) H).
Defined.

Lemma tag_names_are_trimmed_witness :
  In (lit "Jazz") (map fst (collect_tag_count Demo.all))
  /\ Str.strip (lit "Jazz") = lit "Jazz".
Proof.
  assert (H : In (lit "Jazz") (map fst (collect_tag_count Demo.all))).
  { vm_compute. left. reflexivity. }
  split; [exact H|].
  exact (proj1 (proj2 (tag_names_are_trimmed Demo.all (lit "Jazz")
                         (or_introl H)))).
Defined.

Example tag_count_total_sample :
  list_sum (map snd (collect_tag_count Demo.all)) = 7
  /\ length (tag_pairs Demo.all) = 7.
Proof. split; reflexivity. Qed.

Example tag_count_key_order_sample :
  first_occurrences (map snd (tag_pairs Demo.all))
  = [lit "Jazz"; lit "Rock"; lit "jazz"; lit "Pop"].
Proof. reflexivity. Qed.

Lemma In_existsb (T : str) (l : list str) :
  In T l -> existsb (Str.eqb T) l = true.
Proof.
  intros H. apply existsb_exists. exists T.
  split; [exact H | apply str_eqb_refl].
Defined.

(** With 101 distinct tags the tag 99, met last among those that occur
    once, is the one left out; the tag 100 occurs twice and stays. *)
Example crowd_index :
  map Tag.name (ranked_tags (collect_tag_count Crowd.stations))
  = map Crowd.tag_of (seq 0 99) ++ [Crowd.tag_of 100].
Proof. vm_compute. reflexivity. Qed.

Lemma index_keeps_most_frequent_witness :
  In (Crowd.tag_of 100)
     (map Tag.name (ranked_tags (collect_tag_count Crowd.stations)))
  /\ ~ In (Crowd.tag_of 99)
          (map Tag.name (ranked_tags (collect_tag_count Crowd.stations)))
  /\ tag_occurrences (Crowd.tag_of 99) Crowd.stations
     <= tag_occurrences (Crowd.tag_of 100) Crowd.stations.
Proof.
  assert (Hin : In (Crowd.tag_of 100)
                   (map Tag.name
                      (ranked_tags (collect_tag_count Crowd.stations)))).
  { rewrite crowd_index. apply in_or_app. right. left. reflexivity. }
  assert (Hout : ~ In (Crowd.tag_of 99)
                     (map Tag.name
                        (ranked_tags (collect_tag_count Crowd.stations)))).
  { intros H. apply In_existsb in H. vm_compute in H. discriminate H. }
  split; [exact Hin|]. split; [exact Hout|].
  exact (index_keeps_most_frequent Crowd.stations (Crowd.tag_of 99)
           (Crowd.tag_of 100) Hin Hout).
Defined.

Lemma index_complete_when_small_witness :
  length (collect_tag_count Demo.all) <= 100
  /\ 0 < tag_occurrences (lit "Pop") Demo.all
  /\ In (lit "Pop")
        (map Tag.name (ranked_tags (collect_tag_count Demo.all))).
Proof.
  assert (Hsmall : length (collect_tag_count Demo.all) <= 100).
  { vm_compute. lia. }
  assert (Hocc : 0 < tag_occurrences (lit "Pop") Demo.all).
  { vm_compute. lia. }
  split; [exact Hsmall|]. split; [exact Hocc|].
  exact (proj2 (index_complete_when_small Demo.all (lit "Pop")) Hsmall Hocc).
Defined.

(** The tags 0 and 98 both occur once; 98 is in the index, so is 0. *)
Lemma tie_keeps_earlier_tag_witness :
  tag_occurrences (Crowd.tag_of 0) Crowd.stations
  = tag_occurrences (Crowd.tag_of 98) Crowd.stations
  /\ In (Crowd.tag_of 98)
        (map Tag.name (ranked_tags (collect_tag_count Crowd.stations)))
  /\ In (Crowd.tag_of 0)
        (map Tag.name (ranked_tags (collect_tag_count Crowd.stations))).
Proof.
  assert (Hsame : tag_occurrences (Crowd.tag_of 0) Crowd.stations
                  = tag_occurrences (Crowd.tag_of 98) Crowd.stations).
  { vm_compute. reflexivity. }
  assert (H98 : In (Crowd.tag_of 98)
                   (map Tag.name
                      (ranked_tags (collect_tag_count Crowd.stations)))).
  { rewrite crowd_index. apply in_or_app. left.
    apply in_map. apply in_seq. lia. }
  split; [exact Hsame|]. split; [exact H98|].
  apply (tie_keeps_earlier_tag Crowd.stations (Crowd.tag_of 0)
           (Crowd.tag_of 98) [] (map Crowd.tag_of (seq 1 97))
           (map Crowd.tag_of (seq 99 2))).
  - vm_compute. reflexivity.
  - exact Hsame.
  - exact H98.
Defined.

Lemma tag_index_nodes_reenter_witness :
  exists tag,
    Some (lit "tag/Jazz") = Some (lit "tag/" ++ tag)
    /\ 0 < tag_occurrences tag (Radios.stations Demo.client tag_index_query)
    /\ _async_build_by_tag Demo.DOMAIN Demo.guess_type Demo.str_lower
         Demo.str_title Demo.source Demo.client (Demo.item "tag/Jazz")
       = _async_build_stations Demo.DOMAIN Demo.guess_type Demo.source
           Demo.client
           (filter (is_russian Demo.str_lower)
              (Radios.stations Demo.client (by_tag_query tag))).
Proof.
  apply (tag_index_nodes_reenter Demo.DOMAIN Demo.guess_type Demo.str_lower
           Demo.str_title Demo.source Demo.client
           (tag_node Demo.DOMAIN Demo.str_title
              {| Tag.name := lit "Jazz"; Tag.stationcount := 3 |})).
  vm_compute. left. reflexivity.
Defined.

Lemma root_has_one_container_witness :
  is_root {| Item.identifier := Some [] |} = true
  /\ exists nodes,
       children
         (async_browse_media Demo.DOMAIN Demo.guess_type Demo.vincenty
            Demo.str_lower Demo.str_title Nearby.source
            {| Item.identifier := Some [] |})
       = Some nodes
       /\ filter can_expand nodes = [by_category_node Demo.DOMAIN]
       /\ identifier (by_category_node Demo.DOMAIN) = Some (lit "tag").
Proof.
  split; [reflexivity|].
  exact (root_has_one_container Demo.DOMAIN Demo.guess_type Demo.vincenty
           Demo.str_lower Demo.str_title Nearby.source
           {| Item.identifier := Some [] |} eq_refl).
Defined.
